(** * MdKeyboardContainerComponent: presentation lifecycle

    A shallow embedding of [src/keyboard-container.component.ts].  The
    component is an object whose methods mutate [this]; it is modelled by a
    record of its fields and a small state-and-exception monad.  Its
    collaborators (the rxjs [Subject], the Angular [NgZone], the portal host
    and the renderer) are libraries outside the repository: each one is
    modelled by the part of its behaviour the component relies on. *)

From Stdlib Require Import List Ascii String Bool Arith Lia.
Import ListNotations.
Open Scope string_scope.
Open Scope list_scope.

(** ** rxjs [Subject] *)

Module Rx.

(** A subscriber is identified by the number it got when it subscribed. *)
Definition Observer := nat.

(** What a subscriber can be told: a value ([next]) or the end of the
    stream ([complete]).  The component never calls [error]. *)
Inductive Notification : Type :=
| Next
| Complete.

Definition Delivery : Type := (Observer * Notification)%type.

(** [new Subject()]: not stopped, no observers.  [closed] is only set by
    [unsubscribe()] on the subject, which the component never calls. *)
Record Subject : Type := mkSubject {
  isStopped : bool;
  observers : list Observer
}.

Definition create : Subject := mkSubject false [].

Definition tell (n : Notification) (os : list Observer) : list Delivery :=
  map (fun o => (o, n)) os.

(** [subject.next()]: a stopped subject drops the value, otherwise every
    current observer gets it. *)
Definition next (s : Subject) : Subject * list Delivery :=
  if isStopped s then (s, []) else (s, tell Next (observers s)).

(** [subject.complete()]: marks the subject stopped, completes every
    current observer and empties the observer list. *)
Definition complete (s : Subject) : Subject * list Delivery :=
  (mkSubject true [], tell Complete (observers s)).

(** [subject.asObservable().subscribe(o)]: on a stopped subject the
    subscriber is completed at once, otherwise it joins the observers. *)
Definition subscribe (o : Observer) (s : Subject) : Subject * list Delivery :=
  if isStopped s then (s, [(o, Complete)])
  else (mkSubject false (observers s ++ [o]), []).

End Rx.

(** ** Data of the component *)

(** [export type KeyboardState = 'initial' | 'visible' | 'complete' | 'void'] *)
Inductive KeyboardState : Type :=
| initial
| visible
| complete
| void.

(** The string literal behind each member of the union type. *)
Definition literal (k : KeyboardState) : string :=
  match k with
  | initial => "initial"
  | visible => "visible"
  | complete => "complete"
  | void => "void"
  end.

(** The event the animation engine hands to [onAnimationEnd].  [toState] is
    a plain string in Angular; [didFinish] is the field the specification
    gives the event. *)
Record AnimationEvent : Type := mkEvent {
  fromState : string;
  toState : string;
  didFinish : bool
}.

(** Modelled from the spec: the configuration type [MdKeyboardConfig] of
    [keyboard.config] is missing; only its optional list of extra classes
    ("presentation-option tags") is read by the component. *)
Record MdKeyboardConfig : Type := mkConfig {
  extraClasses : option (list string)
}.

(** A component portal is opaque to the container. *)
Record ComponentPortal : Type := mkPortal {
  component : string
}.

(** The handle [PortalHostDirective.attachComponentPortal] gives back. *)
Record ComponentRef : Type := mkRef {
  instanceOf : ComponentPortal
}.

(** The portal host directive inside the container (the rendering
    collaborator, [PortalHostDirective] of Angular Material).
    [_attachedPortal] is the field of [BasePortalHost] behind
    [hasAttached()]: only [BasePortalHost.attach()] sets it, and the
    container never calls that method.  [_portal] is the field that
    [PortalHostDirective.attachComponentPortal] sets to the portal it has
    just materialised. *)
Record PortalHostDirective : Type := mkPortalHost {
  _attachedPortal : option ComponentPortal;
  _portal : option ComponentPortal
}.

Definition hasAttached (h : PortalHostDirective) : bool :=
  match _attachedPortal h with
  | Some _ => true
  | None => false
  end.

(** Modelled from the spec: the error class
    [MdKeyboardContentAlreadyAttached] of [keyboard.errors] is missing; it
    is the "content already attached" error of the specification.
    [NotYetImplemented] is [Error('Not yet implemented')], [TypeError]
    is the fault JavaScript raises when a property of [undefined] is
    read, and [DOMException] is what [classList.add] throws, with its
    name. *)
Inductive Error : Type :=
| MdKeyboardContentAlreadyAttached
| NotYetImplemented
| TypeError
| DOMException (name : string).

(** A callback waiting on [_ngZone.onMicrotaskEmpty.first()].  The only one
    the component registers is the closure of [_completeExit], which holds
    the [onExit] subject of the component. *)
Inductive ZoneCallback : Type :=
| CompleteExit.

(** The two completion signals. *)
Inductive Signal : Type :=
| Entered
| Exited.

(** The component after its view has been initialised, together with what
    its collaborators hold for it:
    - [attrRole], [animState], [_portalHost], [onExit], [onEnter],
      [animationState] and [keyboardConfig] are the fields of the class
      ([keyboardConfig] is declared without initialiser, hence [undefined]
      until assigned);
    - [zoneFirst] are the pending one-shot subscriptions to
      [_ngZone.onMicrotaskEmpty];
    - [classList] are the classes of [_elementRef.nativeElement];
    - [delivered] is the chronological log of what subscribers were told,
      and [nextObserver] numbers the next subscriber. *)
Record Container : Type := mkContainer {
  attrRole : string;
  animState : string;
  _portalHost : PortalHostDirective;
  onExit : Rx.Subject;
  onEnter : Rx.Subject;
  animationState : KeyboardState;
  keyboardConfig : option MdKeyboardConfig;
  zoneFirst : list ZoneCallback;
  classList : list string;
  delivered : list Rx.Delivery;
  nextObserver : nat
}.

(** [new MdKeyboardContainerComponent(...)], view initialised. *)
Definition newContainer : Container :=
  mkContainer "alert" "alert" (mkPortalHost None None) Rx.create Rx.create initial None
    [] [] [] 0.

(** *** Field updates *)

Definition set_portalHost (h : PortalHostDirective) (c : Container) : Container :=
  {| attrRole := attrRole c; animState := animState c; _portalHost := h;
     onExit := onExit c; onEnter := onEnter c;
     animationState := animationState c;
     keyboardConfig := keyboardConfig c; zoneFirst := zoneFirst c;
     classList := classList c; delivered := delivered c;
     nextObserver := nextObserver c |}.

Definition set_onExit (s : Rx.Subject) (c : Container) : Container :=
  {| attrRole := attrRole c; animState := animState c;
     _portalHost := _portalHost c; onExit := s; onEnter := onEnter c;
     animationState := animationState c;
     keyboardConfig := keyboardConfig c; zoneFirst := zoneFirst c;
     classList := classList c; delivered := delivered c;
     nextObserver := nextObserver c |}.

Definition set_onEnter (s : Rx.Subject) (c : Container) : Container :=
  {| attrRole := attrRole c; animState := animState c;
     _portalHost := _portalHost c; onExit := onExit c; onEnter := s;
     animationState := animationState c;
     keyboardConfig := keyboardConfig c; zoneFirst := zoneFirst c;
     classList := classList c; delivered := delivered c;
     nextObserver := nextObserver c |}.

Definition set_animationState (k : KeyboardState) (c : Container) : Container :=
  {| attrRole := attrRole c; animState := animState c;
     _portalHost := _portalHost c; onExit := onExit c;
     onEnter := onEnter c; animationState := k;
     keyboardConfig := keyboardConfig c; zoneFirst := zoneFirst c;
     classList := classList c; delivered := delivered c;
     nextObserver := nextObserver c |}.

Definition set_keyboardConfig (k : option MdKeyboardConfig) (c : Container) : Container :=
  {| attrRole := attrRole c; animState := animState c;
     _portalHost := _portalHost c; onExit := onExit c;
     onEnter := onEnter c; animationState := animationState c;
     keyboardConfig := k; zoneFirst := zoneFirst c;
     classList := classList c; delivered := delivered c;
     nextObserver := nextObserver c |}.

Definition set_zoneFirst (z : list ZoneCallback) (c : Container) : Container :=
  {| attrRole := attrRole c; animState := animState c;
     _portalHost := _portalHost c; onExit := onExit c;
     onEnter := onEnter c; animationState := animationState c;
     keyboardConfig := keyboardConfig c; zoneFirst := z;
     classList := classList c; delivered := delivered c;
     nextObserver := nextObserver c |}.

Definition set_classList (l : list string) (c : Container) : Container :=
  {| attrRole := attrRole c; animState := animState c;
     _portalHost := _portalHost c; onExit := onExit c;
     onEnter := onEnter c; animationState := animationState c;
     keyboardConfig := keyboardConfig c; zoneFirst := zoneFirst c;
     classList := l; delivered := delivered c;
     nextObserver := nextObserver c |}.

Definition set_delivered (d : list Rx.Delivery) (c : Container) : Container :=
  {| attrRole := attrRole c; animState := animState c;
     _portalHost := _portalHost c; onExit := onExit c;
     onEnter := onEnter c; animationState := animationState c;
     keyboardConfig := keyboardConfig c; zoneFirst := zoneFirst c;
     classList := classList c; delivered := d;
     nextObserver := nextObserver c |}.

Definition set_nextObserver (n : nat) (c : Container) : Container :=
  {| attrRole := attrRole c; animState := animState c;
     _portalHost := _portalHost c; onExit := onExit c;
     onEnter := onEnter c; animationState := animationState c;
     keyboardConfig := keyboardConfig c; zoneFirst := zoneFirst c;
     classList := classList c; delivered := delivered c;
     nextObserver := n |}.

(** ** Methods as state-and-exception computations *)

Inductive Result (A : Type) : Type :=
| Return (a : A)
| Throw (e : Error).

Arguments Return {A} a.
Arguments Throw {A} e.

Definition M (A : Type) : Type := Container -> Result A * Container.

Definition ret {A} (a : A) : M A := fun c => (Return a, c).

Definition throw {A} (e : Error) : M A := fun c => (Throw e, c).

Definition bind {A B} (m : M A) (k : A -> M B) : M B :=
  fun c =>
    match m c with
    | (Return a, c') => k a c'
    | (Throw e, c') => (Throw e, c')
    end.

Definition get {A} (f : Container -> A) : M A := fun c => (Return (f c), c).

Definition modify (f : Container -> Container) : M unit :=
  fun c => (Return tt, f c).

Notation "x <- m ;; k" := (bind m (fun x => k))
  (at level 61, m at next level, right associativity).
Notation "m ;; k" := (bind m (fun _ => k))
  (at level 61, right associativity).

(** The state a computation leaves and the result it gives. *)
Definition exec {A} (m : M A) (c : Container) : Container := snd (m c).
Definition eval {A} (m : M A) (c : Container) : Result A := fst (m c).

(** [for (let x of xs) body(x)] *)
Fixpoint forOf {A} (xs : list A) (body : A -> M unit) : M unit :=
  match xs with
  | [] => ret tt
  | x :: xs' => body x ;; forOf xs' body
  end.

(** The tokens [classList.add] accepts: not empty, no ASCII whitespace
    (tab, line feed, form feed, carriage return, space). *)
Definition isWhitespace (a : ascii) : bool :=
  let n := nat_of_ascii a in
  ((n =? 9) || (n =? 10) || (n =? 12) || (n =? 13) || (n =? 32))%nat.

Fixpoint hasWhitespace (s : string) : bool :=
  match s with
  | EmptyString => false
  | String a s' => isWhitespace a || hasWhitespace s'
  end.

Definition validToken (s : string) : bool :=
  negb (s =? "") && negb (hasWhitespace s).

(** [renderer.addClass(element, cssClass)], that is
    [element.classList.add(cssClass)]: an empty token is a [SyntaxError],
    a token with whitespace an [InvalidCharacterError]; otherwise the token
    joins the class list, which holds each token once. *)
Definition addClass (cssClass : string) : M unit :=
  if cssClass =? "" then throw (DOMException "SyntaxError")
  else if hasWhitespace cssClass then throw (DOMException "InvalidCharacterError")
  else
    modify (fun c =>
      if in_dec string_dec cssClass (classList c) then c
      else set_classList (classList c ++ [cssClass]) c).

(** [this._portalHost.attachComponentPortal(portal)]: the portal host
    materialises the portal, remembers it in [_portal] and returns the
    handle; [_attachedPortal] is not touched. *)
Definition portalHost_attachComponentPortal (portal : ComponentPortal) : M ComponentRef :=
  host <- get _portalHost ;;
  modify (set_portalHost (mkPortalHost (_attachedPortal host) (Some portal))) ;;
  ret (mkRef portal).

(** Reading [this.keyboardConfig.extraClasses]: a [TypeError] when
    [keyboardConfig] is [undefined]. *)
Definition keyboardConfig_extraClasses : M (option (list string)) :=
  cfg <- get keyboardConfig ;;
  match cfg with
  | None => throw TypeError
  | Some k => ret (extraClasses k)
  end.

Definition attachComponentPortal (portal : ComponentPortal) : M ComponentRef :=
  host <- get _portalHost ;;
  if hasAttached host then throw MdKeyboardContentAlreadyAttached
  else
    classes <- keyboardConfig_extraClasses ;;
    match classes with
    | Some cs => forOf cs addClass
    | None => ret tt
    end ;;
    portalHost_attachComponentPortal portal.

Definition attachTemplatePortal : M unit :=
  throw NotYetImplemented.

(** Telling subscribers: the deliveries of a subject operation go to the
    log, the subject is written back. *)
Definition onSubject (sig : Signal) (op : Rx.Subject -> Rx.Subject * list Rx.Delivery) : M unit :=
  modify (fun c =>
    match sig with
    | Entered =>
        let (s, ds) := op (onEnter c) in
        set_delivered (delivered c ++ ds) (set_onEnter s c)
    | Exited =>
        let (s, ds) := op (onExit c) in
        set_delivered (delivered c ++ ds) (set_onExit s c)
    end).

(** The closure [() => { onExit.next(); onExit.complete(); }]. *)
Definition runCallback (cb : ZoneCallback) : M unit :=
  match cb with
  | CompleteExit => onSubject Exited Rx.next ;; onSubject Exited Rx.complete
  end.

(** [_completeExit]: registers the closure on
    [this._ngZone.onMicrotaskEmpty.first()]. *)
Definition _completeExit : M unit :=
  modify (fun c => set_zoneFirst (zoneFirst c ++ [CompleteExit]) c).

Definition onAnimationEnd (event : AnimationEvent) : M unit :=
  (if (toState event =? "void") || (toState event =? "complete")
   then _completeExit else ret tt) ;;
  (if toState event =? "visible"
   then onSubject Entered Rx.next ;; onSubject Entered Rx.complete
   else ret tt).

Definition enter : M unit :=
  modify (set_animationState visible).

Definition _onEnter : M Signal :=
  modify (set_animationState visible) ;;
  ret Entered.

Definition _onExit : M Signal :=
  ret Exited.

Definition exit : M Signal :=
  modify (set_animationState complete) ;;
  _onExit.

Definition ngOnDestroy : M unit :=
  _completeExit.

(** ** The environment of the component *)

(** [observable.subscribe(...)] on the observable of a signal: the
    subscriber gets the next free number. *)
Definition subscribe (sig : Signal) : M Rx.Observer :=
  o <- get nextObserver ;;
  modify (set_nextObserver (S o)) ;;
  onSubject sig (Rx.subscribe o) ;;
  ret o.

(** [_ngZone.onMicrotaskEmpty] emits: every pending [first()] subscription
    runs once, in the order of registration, and is gone. *)
Definition microtaskEmpty : M unit :=
  cbs <- get zoneFirst ;;
  modify (set_zoneFirst []) ;;
  forOf cbs runCallback.

(** What can happen to a container. *)
Inductive Op : Type :=
| AttachComponentPortal (portal : ComponentPortal)
| AttachTemplatePortal
| OnAnimationEnd (event : AnimationEvent)
| Enter
| OnEnter
| Exit
| OnExit
| NgOnDestroy
| AssignKeyboardConfig (cfg : MdKeyboardConfig)
| Subscribe (sig : Signal)
| MicrotaskEmpty.

(** What the caller of an operation gets back. *)
Inductive Outcome : Type :=
| Done
| Attached (ref : ComponentRef)
| Observable (sig : Signal)
| Subscribed (o : Rx.Observer)
| Threw (e : Error).

Definition outcome {A} (f : A -> Outcome) (r : Result A) : Outcome :=
  match r with
  | Return a => f a
  | Throw e => Threw e
  end.

Definition observe {A} (f : A -> Outcome) (m : M A) (c : Container) : Outcome * Container :=
  let (r, c') := m c in (outcome f r, c').

Definition perform (op : Op) : Container -> Outcome * Container :=
  match op with
  | AttachComponentPortal p => observe Attached (attachComponentPortal p)
  | AttachTemplatePortal => observe (fun _ => Done) attachTemplatePortal
  | OnAnimationEnd e => observe (fun _ => Done) (onAnimationEnd e)
  | Enter => observe (fun _ => Done) enter
  | OnEnter => observe Observable _onEnter
  | Exit => observe Observable exit
  | OnExit => observe Observable _onExit
  | NgOnDestroy => observe (fun _ => Done) ngOnDestroy
  | AssignKeyboardConfig cfg =>
      observe (fun _ => Done) (modify (set_keyboardConfig (Some cfg)))
  | Subscribe sig => observe Subscribed (subscribe sig)
  | MicrotaskEmpty => observe (fun _ => Done) microtaskEmpty
  end.

Definition step (op : Op) (c : Container) : Container := snd (perform op c).

Definition result (op : Op) (c : Container) : Outcome := fst (perform op c).

(** Running a trace, and the outcomes along it. *)
Fixpoint run (tr : list Op) (c : Container) : Container :=
  match tr with
  | [] => c
  | op :: tr' => run tr' (step op c)
  end.

Fixpoint outcomes (tr : list Op) (c : Container) : list Outcome :=
  match tr with
  | [] => []
  | op :: tr' => result op c :: outcomes tr' (step op c)
  end.

(** ** Observations on a container *)

Definition subject (sig : Signal) (c : Container) : Rx.Subject :=
  match sig with
  | Entered => onEnter c
  | Exited => onExit c
  end.

(** A signal has fired once its subject is stopped. *)
Definition fired (sig : Signal) (c : Container) : bool :=
  Rx.isStopped (subject sig c).

Definition Notification_eqb (a b : Rx.Notification) : bool :=
  match a, b with
  | Rx.Next, Rx.Next => true
  | Rx.Complete, Rx.Complete => true
  | _, _ => false
  end.

(** How often subscriber [o] was told [n] in a log. *)
Definition received (o : Rx.Observer) (n : Rx.Notification) (log : list Rx.Delivery) : nat :=
  List.length (filter (fun d => (fst d =? o)%nat && Notification_eqb (snd d) n) log).

(** How often a signal fires along a trace: the steps in which its subject
    goes from running to stopped. *)
Fixpoint firings (sig : Signal) (tr : list Op) (c : Container) : nat :=
  match tr with
  | [] => 0
  | op :: tr' =>
      (if negb (fired sig c) && fired sig (step op c) then 1 else 0)
      + firings sig tr' (step op c)
  end.

(** How many calls of [attachComponentPortal] gave a handle back. *)
Definition isAttached (o : Outcome) : bool :=
  match o with
  | Attached _ => true
  | _ => false
  end.

Definition successfulAttaches (tr : list Op) (c : Container) : nat :=
  List.length (filter isAttached (outcomes tr c)).

(** The animation engine reports only transitions into the void state
    (the element is not there) or into a state [animationState] has held:
    [engineFaithful seen tr c] checks it along [tr], [seen] being the
    states held so far. *)
Definition requested (seen : list KeyboardState) (e : AnimationEvent) : bool :=
  existsb (fun k => toState e =? literal k) (void :: seen).

Fixpoint engineFaithful (seen : list KeyboardState) (tr : list Op) (c : Container) : bool :=
  match tr with
  | [] => true
  | op :: tr' =>
      match op with
      | OnAnimationEnd e => requested seen e
      | _ => true
      end
      && engineFaithful (animationState (step op c) :: seen) tr' (step op c)
  end.


(** ** Notions used to state and prove the properties *)

Definition set_subject (sig : Signal) (s : Rx.Subject) (c : Container) : Container :=
  match sig with
  | Entered => set_onEnter s c
  | Exited => set_onExit s c
  end.

(** [subject.next(); subject.complete();] in one go. *)
Definition finalize (sig : Signal) : M unit :=
  onSubject sig Rx.next ;; onSubject sig Rx.complete.

Definition finalized (sig : Signal) (c : Container) : Container :=
  let s := subject sig c in
  set_delivered
    (delivered c
       ++ (if Rx.isStopped s then [] else Rx.tell Rx.Next (Rx.observers s))
       ++ Rx.tell Rx.Complete (Rx.observers s))
    (set_subject sig (Rx.mkSubject true []) c).

Definition subscribed (sig : Signal) (c : Container) : Container :=
  let o := nextObserver c in
  let s := subject sig c in
  if Rx.isStopped s
  then set_delivered (delivered c ++ [(o, Rx.Complete)]) (set_nextObserver (S o) c)
  else set_subject sig (Rx.mkSubject false (Rx.observers s ++ [o]))
         (set_nextObserver (S o) c).

(** The emission of [onMicrotaskEmpty] runs the pending callbacks. *)
Definition drained (cbs : list ZoneCallback) (c : Container) : Container :=
  fold_left (fun c' _ => finalized Exited c') cbs c.

(** The two branches of [onAnimationEnd]. *)
Definition schedulesExit (e : AnimationEvent) : bool :=
  (toState e =? "void") || (toState e =? "complete").

(** The operations that call [_completeExit]. *)
Definition completesExit (op : Op) : bool :=
  match op with
  | NgOnDestroy => true
  | OnAnimationEnd e => schedulesExit e
  | _ => false
  end.

(** Two containers agree on everything the subscribers can tell. *)
Definition sameSignals (c c' : Container) : Prop :=
  onEnter c' = onEnter c /\ onExit c' = onExit c /\
  delivered c' = delivered c /\ nextObserver c' = nextObserver c.

(** *** The invariant of the two subjects and the delivery log

    Waiting observers are distinct, were numbered before, and have been told
    nothing yet; nobody has been told anything twice; a stopped subject has
    no observers left. *)
Definition InvV (en ex : Rx.Subject) (d : list Rx.Delivery) (n : nat) : Prop :=
  NoDup (Rx.observers en ++ Rx.observers ex) /\
  (forall o, In o (Rx.observers en ++ Rx.observers ex) -> o < n) /\
  (forall o k, n <= o -> received o k d = 0) /\
  (forall o k, In o (Rx.observers en ++ Rx.observers ex) -> received o k d = 0) /\
  (forall o k, received o k d <= 1) /\
  (Rx.isStopped en = true -> Rx.observers en = []) /\
  (Rx.isStopped ex = true -> Rx.observers ex = []).

Definition Inv (c : Container) : Prop :=
  InvV (onEnter c) (onExit c) (delivered c) (nextObserver c).

(** A subscriber of [sig] is either still waiting or has been told
    [Complete] exactly once. *)
Definition served (sig : Signal) (o : Rx.Observer) (c : Container) : Prop :=
  (In o (Rx.observers (subject sig c)) /\ fired sig c = false) \/
  received o Rx.Complete (delivered c) = 1.

(** An exit callback is pending, or the exited signal has fired. *)
Definition exitSecured (c : Container) : Prop :=
  fired Exited c = true \/ zoneFirst c <> [].

Definition reportComplete : AnimationEvent := mkEvent "visible" "complete" true.

Definition reportVisible : AnimationEvent := mkEvent "initial" "visible" true.

Definition configured : Container :=
  step (AssignKeyboardConfig (mkConfig (Some ["md-keyboard-dark"]))) newContainer.

(** What subscriber [o] was told, in the order it was told. *)
Definition inbox (o : Rx.Observer) (log : list Rx.Delivery) : list Rx.Notification :=
  map snd (filter (fun d => (fst d =? o)%nat) log).

(** The operations that assign [animationState], and the value the last
    of them in a trace leaves ([k] when there is none). *)
Definition assigns (op : Op) : option KeyboardState :=
  match op with
  | Enter | OnEnter => Some visible
  | Exit => Some complete
  | _ => None
  end.

Fixpoint lastAssigned (tr : list Op) (k : KeyboardState) : KeyboardState :=
  match tr with
  | [] => k
  | op :: tr' =>
      lastAssigned tr' (match assigns op with Some k' => k' | None => k end)
  end.

(** A report of a transition into ['visible'] occurs in the trace. *)
Definition reportsVisible (op : Op) : bool :=
  match op with
  | OnAnimationEnd e => toState e =? "visible"
  | _ => false
  end.

(** An early subscriber of [sig] waits with an empty inbox, or the signal
    has fired and it was told the value, then [Complete]. *)
Definition earlyOk (sig : Signal) (o : Rx.Observer) (c : Container) : Prop :=
  Inv c /\
  ((In o (Rx.observers (subject sig c)) /\ fired sig c = false /\
    inbox o (delivered c) = []) \/
   (fired sig c = true /\ inbox o (delivered c) = [Rx.Next; Rx.Complete])).

(** A late subscriber of [sig] was told [Complete] and nothing else. *)
Definition lateOk (sig : Signal) (o : Rx.Observer) (c : Container) : Prop :=
  Inv c /\ fired sig c = true /\ inbox o (delivered c) = [Rx.Complete].

Definition portalX : ComponentPortal := mkPortal "X".

Definition portalY : ComponentPortal := mkPortal "Y".

Definition portalZ : ComponentPortal := mkPortal "Z".

(** The class list [l] comes from the one of [c] by adding valid tokens
    of the configured extra classes. *)
Definition grownFrom (c : Container) (l : list string) : Prop :=
  (forall x, In x (classList c) -> In x l) /\
  (forall x, In x l ->
     In x (classList c) \/
     (validToken x = true /\
      exists k cs, keyboardConfig c = Some k /\ extraClasses k = Some cs /\ In x cs)) /\
  (NoDup (classList c) -> NoDup l).

(** ** Attaching content *)

Section Attach.

Variable portal : ComponentPortal.

Lemma addClass_valid (x : string) (c : Container) :
  validToken x = true ->
  addClass x c =
    (Return tt,
     if in_dec string_dec x (classList c) then c
     else set_classList (classList c ++ [x]) c).
Proof.
  unfold validToken, addClass; intro V.
  apply andb_prop in V; destruct V as [V1 V2].
  destruct (x =? ""); [discriminate|].
  destruct (hasWhitespace x); [discriminate|reflexivity].
Qed.

Lemma addClass_invalid (x : string) (c : Container) :
  validToken x = false ->
  exists n, addClass x c = (Throw (DOMException n), c).
Proof.
  unfold validToken, addClass; intro V.
  destruct (x =? ""); [eexists; reflexivity|].
  destruct (hasWhitespace x); [eexists; reflexivity|discriminate].
Qed.

Lemma set_classList_same (c : Container) : set_classList (classList c) c = c.
Proof. destruct c; reflexivity. Qed.

(** The loop over valid extra classes runs to its end and touches the
    class list only. *)
Lemma forOf_addClass (cs : list string) (c : Container) :
  forallb validToken cs = true ->
  exists l,
    forOf cs addClass c = (Return tt, set_classList l c) /\
    (forall x, In x l <-> In x (classList c) \/ In x cs) /\
    (cs = [] -> l = classList c) /\
    (NoDup (classList c) -> NoDup l).
Proof.
  revert c; induction cs as [|x cs IH]; intros c V.
  - exists (classList c); rewrite set_classList_same.
    repeat split; simpl; auto; tauto.
  - cbn [forallb] in V; apply andb_prop in V; destruct V as [Vx V].
    cbn [forOf]; unfold bind; rewrite (addClass_valid x c Vx).
    destruct (in_dec string_dec x (classList c)) as [Hin|Hout].
    + destruct (IH c V) as (l & Hl & Hiff & _ & ND).
      exists l; rewrite Hl; split; [reflexivity|split; [|split; [discriminate|exact ND]]].
      intro y; rewrite Hiff; simpl; split; [tauto|].
      intros [Hy|[Hy|Hy]]; subst; auto.
    + destruct (IH (set_classList (classList c ++ [x]) c) V) as (l & Hl & Hiff & _ & ND).
      exists l; rewrite Hl; split; [reflexivity|split; [|split; [discriminate|]]].
      * intro y; rewrite Hiff; simpl; rewrite in_app_iff; simpl; tauto.
      * intro N; apply ND; simpl.
        apply NoDup_Add with (a := x) (l := classList c).
        -- rewrite <- (app_nil_r (classList c)) at 1.
           replace (classList c ++ [x]) with (classList c ++ x :: []) by reflexivity.
           apply Add_app.
        -- split; assumption.
Qed.

(** At the first invalid extra class the loop stops with the exception;
    the classes before it have been added. *)
Lemma forOf_addClass_invalid (good rest : list string) (bad : string) (c : Container) :
  forallb validToken good = true ->
  validToken bad = false ->
  exists l n,
    forOf (good ++ bad :: rest) addClass c = (Throw (DOMException n), set_classList l c) /\
    (forall x, In x l <-> In x (classList c) \/ In x good).
Proof.
  revert c; induction good as [|x good IH]; intros c V B.
  - destruct (addClass_invalid bad c B) as [n E].
    exists (classList c), n; cbn [app forOf]; unfold bind; rewrite E.
    rewrite set_classList_same; split; [reflexivity|simpl; tauto].
  - cbn [forallb] in V; apply andb_prop in V; destruct V as [Vx V].
    cbn [app forOf]; unfold bind; rewrite (addClass_valid x c Vx).
    destruct (in_dec string_dec x (classList c)) as [Hin|Hout].
    + destruct (IH c V B) as (l & n & Hl & Hiff).
      exists l, n; rewrite Hl; split; [reflexivity|].
      intro y; rewrite Hiff; simpl; split; [tauto|].
      intros [Hy|[Hy|Hy]]; subst; auto.
    + destruct (IH (set_classList (classList c ++ [x]) c) V B) as (l & n & Hl & Hiff).
      exists l, n; rewrite Hl; split; [reflexivity|].
      intro y; rewrite Hiff; simpl; rewrite in_app_iff; simpl; tauto.
Qed.

(** Whatever the extra classes, the loop touches the class list only, and
    only by adding valid tokens among them. *)
Lemma forOf_addClass_any (cs : list string) (c : Container) :
  exists r l,
    forOf cs addClass c = (r, set_classList l c) /\
    (forall x, In x (classList c) -> In x l) /\
    (forall x, In x l -> In x (classList c) \/ (validToken x = true /\ In x cs)) /\
    (NoDup (classList c) -> NoDup l) /\
    (forall e, r = Throw e -> exists n, e = DOMException n).
Proof.
  revert c; induction cs as [|x cs IH]; intro c.
  - exists (Return tt), (classList c); rewrite set_classList_same.
    repeat split; auto; discriminate.
  - cbn [forOf]; unfold bind.
    destruct (validToken x) eqn:Vx.
    + rewrite (addClass_valid x c Vx).
      destruct (in_dec string_dec x (classList c)) as [Hin|Hout].
      * destruct (IH c) as (r & l & Hl & M & P & ND & T).
        exists r, l; rewrite Hl.
        split; [destruct r; reflexivity|].
        split; [exact M|split; [|split; [exact ND|exact T]]].
        intros y Hy; destruct (P y Hy) as [Q|[Q1 Q2]]; simpl; auto.
      * destruct (IH (set_classList (classList c ++ [x]) c))
          as (r & l & Hl & M & P & ND & T).
        assert (N' : NoDup (classList c) -> NoDup (classList c ++ [x])).
        { intro N; apply NoDup_Add with (a := x) (l := classList c).
          - rewrite <- (app_nil_r (classList c)) at 1.
            replace (classList c ++ [x]) with (classList c ++ x :: []) by reflexivity.
            apply Add_app.
          - split; assumption. }
        exists r, l; rewrite Hl.
        split; [destruct r; reflexivity|].
        split; [intros y Hy; apply M; simpl; apply in_or_app; auto|].
        split; [|split; [intro N; apply ND, N', N|exact T]].
        intros y Hy; destruct (P y Hy) as [Q|[Q1 Q2]]; simpl in *; auto.
        apply in_app_or in Q; destruct Q as [Q|[<-|[]]]; auto.
    + destruct (addClass_invalid x c Vx) as [n E]; rewrite E.
      exists (Throw (DOMException n)), (classList c); rewrite set_classList_same.
      repeat split; auto.
      intros e F; injection F as <-; eauto.
Qed.

(** A host that reports content refuses before anything else happens. *)
Lemma attach_occupied (c : Container) :
  hasAttached (_portalHost c) = true ->
  attachComponentPortal portal c = (Throw MdKeyboardContentAlreadyAttached, c).
Proof.
  intro H; unfold attachComponentPortal, bind, get, throw; rewrite H; reflexivity.
Qed.

(** Without configuration the call faults on the dereference. *)
Lemma attach_unconfigured (c : Container) :
  hasAttached (_portalHost c) = false ->
  keyboardConfig c = None ->
  attachComponentPortal portal c = (Throw TypeError, c).
Proof.
  intros H K.
  unfold attachComponentPortal, keyboardConfig_extraClasses, bind, get, throw.
  rewrite H, K; reflexivity.
Qed.

Lemma attach_configured (c : Container) (k : MdKeyboardConfig) :
  hasAttached (_portalHost c) = false ->
  keyboardConfig c = Some k ->
  attachComponentPortal portal c =
    ((match extraClasses k with
      | Some cs => forOf cs addClass
      | None => ret tt
      end;; portalHost_attachComponentPortal portal) c).
Proof.
  intros H K.
  assert (E0 : keyboardConfig_extraClasses c = (Return (extraClasses k), c)).
  { unfold keyboardConfig_extraClasses, bind, get; rewrite K; reflexivity. }
  unfold attachComponentPortal.
  unfold bind at 1, get; rewrite H.
  unfold bind at 1; rewrite E0; reflexivity.
Qed.

(** With valid extra classes the portal is handed to the portal host;
    only the class list and the portal host change. *)
Lemma attach_empty (c : Container) (k : MdKeyboardConfig) :
  hasAttached (_portalHost c) = false ->
  keyboardConfig c = Some k ->
  match extraClasses k with
  | Some cs => forallb validToken cs = true
  | None => True
  end ->
  exists l,
    attachComponentPortal portal c =
      (Return (mkRef portal),
       set_portalHost (mkPortalHost (_attachedPortal (_portalHost c)) (Some portal))
         (set_classList l c)) /\
    (forall x, In x l <->
       In x (classList c) \/
       match extraClasses k with Some cs => In x cs | None => False end) /\
    (extraClasses k = None \/ extraClasses k = Some [] -> l = classList c) /\
    (NoDup (classList c) -> NoDup l).
Proof.
  intros H K V; rewrite (attach_configured c k H K).
  destruct (extraClasses k) as [cs|] eqn:E.
  - destruct (forOf_addClass cs c V) as (l & Hl & Hiff & Hnil & ND).
    exists l; unfold bind at 1; rewrite Hl.
    split; [reflexivity|split; [exact Hiff|split; [|exact ND]]].
    intros [F|F]; [discriminate|]; injection F as ->; auto.
  - exists (classList c); unfold bind at 1, ret.
    rewrite set_classList_same.
    split; [reflexivity|split; [tauto|split; auto]].
Qed.

(** With an invalid extra class the call faults before it reaches the
    portal host. *)
Lemma attach_invalid (c : Container) (k : MdKeyboardConfig)
      (good rest : list string) (bad : string) :
  hasAttached (_portalHost c) = false ->
  keyboardConfig c = Some k ->
  extraClasses k = Some (good ++ bad :: rest) ->
  forallb validToken good = true ->
  validToken bad = false ->
  exists l n,
    attachComponentPortal portal c = (Throw (DOMException n), set_classList l c) /\
    (forall x, In x l <-> In x (classList c) \/ In x good).
Proof.
  intros H K E V B; rewrite (attach_configured c k H K), E.
  destruct (forOf_addClass_invalid good rest bad c V B) as (l & n & Hl & Hiff).
  exists l, n; unfold bind at 1; rewrite Hl; split; [reflexivity|exact Hiff].
Qed.

(** Every call either throws, leaving the portal host alone, or returns
    the handle of the portal, which the portal host now remembers; the
    class list only grows; and the error is
    [MdKeyboardContentAlreadyAttached] exactly when [hasAttached()]
    holds. *)
Lemma attach_cases (c : Container) :
  exists l, grownFrom c l /\
    ((exists e,
        attachComponentPortal portal c = (Throw e, set_classList l c) /\
        (e = MdKeyboardContentAlreadyAttached <-> hasAttached (_portalHost c) = true)) \/
     (attachComponentPortal portal c =
        (Return (mkRef portal),
         set_portalHost (mkPortalHost (_attachedPortal (_portalHost c)) (Some portal))
           (set_classList l c)) /\
      hasAttached (_portalHost c) = false /\
      exists k, keyboardConfig c = Some k)).
Proof.
  assert (G0 : grownFrom c (classList c)) by (repeat split; auto).
  destruct (hasAttached (_portalHost c)) eqn:H.
  - exists (classList c); split; [exact G0|left].
    exists MdKeyboardContentAlreadyAttached.
    rewrite attach_occupied, set_classList_same by assumption; split; tauto.
  - destruct (keyboardConfig c) as [k|] eqn:K.
    + rewrite (attach_configured c k H K).
      destruct (extraClasses k) as [cs|] eqn:E.
      * destruct (forOf_addClass_any cs c) as (r & l & Hl & M & P & ND & T).
        assert (G : grownFrom c l).
        { split; [exact M|split; [|exact ND]].
          intros x Hx; destruct (P x Hx) as [Q|[Q1 Q2]]; eauto 8. }
        exists l; split; [exact G|].
        destruct r as [[]|e].
        -- right; unfold bind at 1; rewrite Hl; split; [reflexivity|eauto].
        -- left; exists e; unfold bind at 1; rewrite Hl; split; [reflexivity|].
           destruct (T e eq_refl) as [n ->]; split; discriminate.
      * exists (classList c); split; [exact G0|right].
        rewrite set_classList_same; split; [reflexivity|eauto].
    + exists (classList c); split; [exact G0|left].
      exists TypeError.
      rewrite attach_unconfigured, set_classList_same by assumption.
      split; [reflexivity|split; discriminate].
Qed.

End Attach.

(** ** What each operation does to the container *)

Lemma finalize_run (sig : Signal) (c : Container) :
  finalize sig c = (Return tt, finalized sig c).
Proof.
  destruct c as [ar an ph [sx ox] [se oe] st cfg z cl d n].
  destruct sig; [destruct se | destruct sx];
    unfold finalize, finalized, bind, onSubject, modify; simpl;
    rewrite ?app_nil_r, <- ?app_assoc; reflexivity.
Qed.

Lemma subscribe_run (sig : Signal) (c : Container) :
  subscribe sig c = (Return (nextObserver c), subscribed sig c).
Proof.
  destruct c as [ar an ph [sx ox] [se oe] st cfg z cl d n].
  destruct sig; [destruct se | destruct sx];
    unfold subscribe, subscribed, bind, onSubject, modify, get, ret; simpl;
    rewrite ?app_nil_r; reflexivity.
Qed.

Lemma forOf_runCallback (cbs : list ZoneCallback) (c : Container) :
  forOf cbs runCallback c = (Return tt, drained cbs c).
Proof.
  revert c; induction cbs as [|[] cbs IH]; intro c; [reflexivity|].
  cbn [forOf drained fold_left]; unfold bind at 1.
  change (runCallback CompleteExit) with (finalize Exited).
  rewrite finalize_run; apply IH.
Qed.

Lemma step_Enter (c : Container) : step Enter c = set_animationState visible c.
Proof. reflexivity. Qed.

Lemma step_OnEnter (c : Container) : step OnEnter c = set_animationState visible c.
Proof. reflexivity. Qed.

Lemma step_Exit (c : Container) : step Exit c = set_animationState complete c.
Proof. reflexivity. Qed.

Lemma step_OnExit (c : Container) : step OnExit c = c.
Proof. reflexivity. Qed.

Lemma step_NgOnDestroy (c : Container) :
  step NgOnDestroy c = set_zoneFirst (zoneFirst c ++ [CompleteExit]) c.
Proof. reflexivity. Qed.

Lemma step_AttachTemplatePortal (c : Container) : step AttachTemplatePortal c = c.
Proof. reflexivity. Qed.

Lemma step_AssignKeyboardConfig (k : MdKeyboardConfig) (c : Container) :
  step (AssignKeyboardConfig k) c = set_keyboardConfig (Some k) c.
Proof. reflexivity. Qed.

Lemma step_Subscribe (sig : Signal) (c : Container) :
  step (Subscribe sig) c = subscribed sig c.
Proof. unfold step, perform, observe; rewrite subscribe_run; reflexivity. Qed.

Lemma step_MicrotaskEmpty (c : Container) :
  step MicrotaskEmpty c = drained (zoneFirst c) (set_zoneFirst [] c).
Proof.
  unfold step, perform, observe, microtaskEmpty, bind, get, modify.
  rewrite forOf_runCallback; reflexivity.
Qed.

Lemma step_OnAnimationEnd (e : AnimationEvent) (c : Container) :
  step (OnAnimationEnd e) c =
    let c1 := if schedulesExit e
              then set_zoneFirst (zoneFirst c ++ [CompleteExit]) c else c in
    if toState e =? "visible" then finalized Entered c1 else c1.
Proof.
  unfold step, perform, observe, onAnimationEnd, schedulesExit.
  unfold bind at 1.
  destruct ((toState e =? "void") || (toState e =? "complete"));
    unfold _completeExit, modify, ret;
    destruct (toState e =? "visible"); cbv zeta;
    try reflexivity;
    change (onSubject Entered Rx.next;; onSubject Entered Rx.complete)
      with (finalize Entered);
    rewrite finalize_run; reflexivity.
Qed.

Lemma step_AttachComponentPortal (p : ComponentPortal) (c : Container) :
  exists h l, step (AttachComponentPortal p) c = set_portalHost h (set_classList l c).
Proof.
  unfold step, perform, observe.
  destruct (attach_cases p c) as (l & _ & [(e & -> & _)|[-> _]]).
  - exists (_portalHost c), l; destruct c; reflexivity.
  - eexists _, l; reflexivity.
Qed.

(** ** Properties of the signals along every trace *)

Section Closure.

(** A property of the signals that finalising and subscribing keep is
    kept by every operation. *)
Variable P : Container -> Prop.
Hypothesis P_same : forall c c', sameSignals c c' -> P c -> P c'.
Hypothesis P_finalized : forall sig c, P c -> P (finalized sig c).
Hypothesis P_subscribed : forall sig c, P c -> P (subscribed sig c).

Lemma drained_closed (cbs : list ZoneCallback) (c : Container) :
  P c -> P (drained cbs c).
Proof.
  revert c; induction cbs as [|cb cbs IH]; intros c H; [exact H|].
  apply IH, P_finalized, H.
Qed.

Lemma step_closed (op : Op) (c : Container) : P c -> P (step op c).
Proof.
  intro H; destruct op.
  - destruct (step_AttachComponentPortal portal c) as (h & l & ->).
    revert H; apply P_same; repeat split.
  - exact H.
  - rewrite step_OnAnimationEnd; cbv zeta.
    assert (H1 : P (if schedulesExit event
                    then set_zoneFirst (zoneFirst c ++ [CompleteExit]) c else c)).
    { destruct (schedulesExit event); [|exact H].
      revert H; apply P_same; repeat split. }
    destruct (toState event =? "visible"); [apply P_finalized|]; exact H1.
  - revert H; apply P_same; repeat split.
  - revert H; apply P_same; repeat split.
  - revert H; apply P_same; repeat split.
  - exact H.
  - revert H; apply P_same; repeat split.
  - revert H; apply P_same; repeat split.
  - rewrite step_Subscribe; apply P_subscribed, H.
  - rewrite step_MicrotaskEmpty; apply drained_closed.
    revert H; apply P_same; repeat split.
Qed.

Lemma run_closed (tr : list Op) (c : Container) : P c -> P (run tr c).
Proof.
  revert c; induction tr as [|op tr IH]; intros c H; [exact H|].
  apply IH, step_closed, H.
Qed.

End Closure.

Lemma run_app (tr1 tr2 : list Op) (c : Container) :
  run (tr1 ++ tr2) c = run tr2 (run tr1 c).
Proof. revert c; induction tr1 as [|op tr1 IH]; intro c; [reflexivity|apply IH]. Qed.

(** *** Counting deliveries *)

Lemma received_app (o : Rx.Observer) (n : Rx.Notification) (l1 l2 : list Rx.Delivery) :
  received o n (l1 ++ l2) = received o n l1 + received o n l2.
Proof. unfold received; rewrite filter_app, length_app; reflexivity. Qed.

Lemma received_tell_other (o : Rx.Observer) (n m : Rx.Notification) (os : list Rx.Observer) :
  n <> m -> received o n (Rx.tell m os) = 0.
Proof.
  intro D; induction os as [|x os IH]; [reflexivity|].
  unfold received in *; simpl.
  destruct (x =? o)%nat, m, n; simpl; try congruence.
Qed.

Lemma received_tell_absent (o : Rx.Observer) (n m : Rx.Notification) (os : list Rx.Observer) :
  ~ In o os -> received o n (Rx.tell m os) = 0.
Proof.
  induction os as [|x os IH]; intro A; [reflexivity|].
  unfold received in *; simpl in *.
  destruct (Nat.eqb_spec x o) as [->|D]; [tauto|].
  simpl; apply IH; tauto.
Qed.

Lemma received_tell_once (o : Rx.Observer) (n : Rx.Notification) (os : list Rx.Observer) :
  NoDup os -> In o os -> received o n (Rx.tell n os) = 1.
Proof.
  induction 1 as [|x os Hx ND IH]; intro A; [destruct A|].
  destruct A as [->|A].
  - change (Rx.tell n (o :: os)) with ([(o, n)] ++ Rx.tell n os).
    rewrite received_app, (received_tell_absent _ _ _ _ Hx).
    unfold received; simpl; rewrite Nat.eqb_refl; destruct n; reflexivity.
  - change (Rx.tell n (x :: os)) with ([(x, n)] ++ Rx.tell n os).
    rewrite received_app, IH by assumption.
    unfold received; simpl.
    destruct (Nat.eqb_spec x o) as [->|D]; [contradiction|reflexivity].
Qed.

Lemma received_tell_le (o : Rx.Observer) (n m : Rx.Notification) (os : list Rx.Observer) :
  NoDup os -> received o n (Rx.tell m os) <= 1.
Proof.
  intro ND.
  destruct (in_dec Nat.eq_dec o os) as [A|A].
  - destruct n, m; try (rewrite received_tell_other by discriminate; lia);
      rewrite received_tell_once by assumption; lia.
  - rewrite received_tell_absent by assumption; lia.
Qed.

Lemma Inv_new : Inv newContainer.
Proof.
  unfold Inv, InvV; simpl; repeat split; auto; try tauto; try lia; constructor.
Qed.

Lemma Inv_same (c c' : Container) : sameSignals c c' -> Inv c -> Inv c'.
Proof. intros (E1 & E2 & E3 & E4); unfold Inv; rewrite E1, E2, E3, E4; auto. Qed.

(** Telling a group of waiting observers [Next] (unless stopped) and
    [Complete] keeps the counts of everybody in bounds. *)
Lemma received_final (o : Rx.Observer) (k : Rx.Notification) (b : bool) (os : list Rx.Observer) :
  NoDup os ->
  received o k ((if b then [] else Rx.tell Rx.Next os) ++ Rx.tell Rx.Complete os) <= 1.
Proof.
  intro ND; rewrite received_app.
  destruct k.
  - rewrite (received_tell_other o Rx.Next Rx.Complete) by discriminate.
    destruct b; [simpl; lia|].
    pose proof (received_tell_le o Rx.Next Rx.Next os ND); lia.
  - pose proof (received_tell_le o Rx.Complete Rx.Complete os ND).
    destruct b; [simpl; lia|].
    rewrite (received_tell_other o Rx.Complete Rx.Next) by discriminate; lia.
Qed.

Lemma received_final_absent (o : Rx.Observer) (k : Rx.Notification) (b : bool) (os : list Rx.Observer) :
  ~ In o os ->
  received o k ((if b then [] else Rx.tell Rx.Next os) ++ Rx.tell Rx.Complete os) = 0.
Proof.
  intro A; rewrite received_app, (received_tell_absent o k Rx.Complete os A).
  destruct b; [reflexivity|].
  rewrite (received_tell_absent o k Rx.Next os A); reflexivity.
Qed.

Lemma NoDup_app_apart (l1 l2 : list nat) (o : nat) :
  NoDup (l1 ++ l2) -> In o l1 -> In o l2 -> False.
Proof.
  induction l1 as [|x l1 IH]; simpl; intros ND A B; [exact A|].
  inversion ND as [|? ? Hx ND']; subst.
  destruct A as [->|A]; [apply Hx, in_or_app; auto|eauto].
Qed.

Lemma Inv_finalized (sig : Signal) (c : Container) : Inv c -> Inv (finalized sig c).
Proof.
  destruct c as [ar an ph [sx ox] [se oe] st cfg z cl d n].
  unfold Inv, InvV; destruct sig; simpl;
    intros (ND & FR & UN & WA & ON & SE & SX).
  - assert (NDe : NoDup oe) by (eapply NoDup_app_remove_r; exact ND).
    repeat split; auto; try discriminate.
    + eapply NoDup_app_remove_l; exact ND.
    + intros o A; apply FR, in_or_app; auto.
    + intros o k L; rewrite received_app, UN by exact L.
      rewrite received_final_absent; auto.
      intro A; specialize (FR o (in_or_app _ _ _ (or_introl A))); lia.
    + intros o k A; rewrite received_app, WA by (apply in_or_app; auto).
      rewrite received_final_absent; auto.
      intro B; exact (NoDup_app_apart _ _ _ ND B A).
    + intros o k; rewrite received_app.
      destruct (in_dec Nat.eq_dec o oe) as [A|A].
      * rewrite WA by (apply in_or_app; auto).
        apply received_final; auto.
      * rewrite received_final_absent by auto; specialize (ON o k); lia.
  - assert (NDx : NoDup ox) by (eapply NoDup_app_remove_l; exact ND).
    rewrite app_nil_r; repeat split; auto; try discriminate.
    + eapply NoDup_app_remove_r; exact ND.
    + intros o A; apply FR, in_or_app; auto.
    + intros o k L; rewrite received_app, UN by exact L.
      rewrite received_final_absent; auto.
      intro A; specialize (FR o (in_or_app _ _ _ (or_intror A))); lia.
    + intros o k A; rewrite received_app, WA by (apply in_or_app; auto).
      rewrite received_final_absent; auto.
      intro B; exact (NoDup_app_apart _ _ _ ND A B).
    + intros o k; rewrite received_app.
      destruct (in_dec Nat.eq_dec o ox) as [A|A].
      * rewrite WA by (apply in_or_app; auto).
        apply received_final; auto.
      * rewrite received_final_absent by auto; specialize (ON o k); lia.
Qed.

Lemma received_one (o x : nat) (k m : Rx.Notification) :
  received o k [(x, m)] <= 1 /\ (x <> o -> received o k [(x, m)] = 0).
Proof.
  unfold received; simpl.
  destruct (Nat.eqb_spec x o); destruct m, k; simpl; split; auto; congruence.
Qed.

Lemma NoDup_snoc (l : list nat) (x : nat) :
  NoDup l -> ~ In x l -> NoDup (l ++ [x]).
Proof.
  induction 1 as [|y l Hy ND IH]; simpl; intro A.
  - constructor; [tauto|constructor].
  - constructor; [|apply IH; tauto].
    rewrite in_app_iff; simpl; intros [B|[B|[]]]; subst; tauto.
Qed.

Lemma NoDup_insert (l1 l2 : list nat) (x : nat) :
  NoDup (l1 ++ l2) -> ~ In x (l1 ++ l2) -> NoDup ((l1 ++ [x]) ++ l2).
Proof.
  intros ND A; rewrite <- app_assoc; simpl.
  apply NoDup_Add with (a := x) (l := l1 ++ l2); [apply Add_app|].
  split; assumption.
Qed.

Lemma Inv_subscribed (sig : Signal) (c : Container) : Inv c -> Inv (subscribed sig c).
Proof.
  destruct c as [ar an ph [sx ox] [se oe] st cfg z cl d n].
  unfold Inv, InvV, subscribed.
  assert (T : forall (b : bool) (l1 l2 : list nat),
             NoDup (l1 ++ l2) ->
             (forall o, In o (l1 ++ l2) -> o < n) ->
             (forall o k, n <= o -> received o k d = 0) ->
             (forall o k, In o (l1 ++ l2) -> received o k d = 0) ->
             (forall o k, received o k d <= 1) ->
             (forall o, In o (l1 ++ l2) -> o < S n) /\
             (forall o k, S n <= o ->
                received o k (if b then d ++ [(n, Rx.Complete)] else d) = 0) /\
             (forall o k, In o (l1 ++ l2) ->
                received o k (if b then d ++ [(n, Rx.Complete)] else d) = 0) /\
             (forall o k, received o k (if b then d ++ [(n, Rx.Complete)] else d) <= 1)).
  { intros b l1 l2 ND FR UN WA ON; repeat split.
    - intros o A; specialize (FR o A); lia.
    - intros o k L; destruct b; [|apply UN; lia].
      rewrite received_app, UN by lia.
      destruct (received_one o n k Rx.Complete) as [_ Z]; rewrite Z; lia.
    - intros o k A; destruct b; [|apply WA; exact A].
      rewrite received_app, WA by exact A.
      specialize (FR o A).
      destruct (received_one o n k Rx.Complete) as [_ Z]; rewrite Z; lia.
    - intros o k; destruct b; [|apply ON].
      rewrite received_app.
      destruct (received_one o n k Rx.Complete) as [L Z].
      destruct (Nat.eq_dec n o) as [E|D].
      + rewrite UN by lia; exact L.
      + rewrite (Z D); specialize (ON o k); lia. }
  destruct sig; simpl; intros (ND & FR & UN & WA & ON & SE & SX).
  - destruct se; simpl.
    + destruct (T true oe ox ND FR UN WA ON) as (T1 & T2 & T3 & T4).
      repeat split; auto.
    + assert (F : ~ In n (oe ++ ox)) by (intro A; specialize (FR n A); lia).
      repeat split; auto; try discriminate.
      * apply NoDup_insert; assumption.
      * intros o A; rewrite <- app_assoc in A; apply in_app_or in A.
        destruct A as [A|[<-|A]]; [| lia |];
          (assert (o < n) by (apply FR, in_or_app; auto)); lia.
      * intros o k L; apply UN; lia.
      * intros o k A; rewrite <- app_assoc in A; apply in_app_or in A.
        destruct A as [A|[<-|A]]; [| apply UN; lia |]; apply WA, in_or_app; auto.
  - destruct sx; simpl.
    + destruct (T true oe ox ND FR UN WA ON) as (T1 & T2 & T3 & T4).
      repeat split; auto.
    + assert (F : ~ In n (oe ++ ox)) by (intro A; specialize (FR n A); lia).
      repeat split; auto; try discriminate.
      * rewrite app_assoc; apply NoDup_snoc; assumption.
      * intros o A; rewrite app_assoc in A; apply in_app_or in A.
        destruct A as [A|[<-|[]]]; [specialize (FR o A)|]; lia.
      * intros o k L; apply UN; lia.
      * intros o k A; rewrite app_assoc in A; apply in_app_or in A.
        destruct A as [A|[<-|[]]]; [apply WA; exact A|apply UN; lia].
Qed.

(** The invariant holds along every trace. *)
Lemma Inv_run (tr : list Op) : Inv (run tr newContainer).
Proof.
  apply run_closed with (P := Inv).
  - exact Inv_same.
  - exact Inv_finalized.
  - exact Inv_subscribed.
  - exact Inv_new.
Qed.

(** *** Firing is final *)

Lemma fired_finalized (sig sig' : Signal) (c : Container) :
  fired sig' (finalized sig c) =
    match sig, sig' with
    | Entered, Entered | Exited, Exited => true
    | _, _ => fired sig' c
    end.
Proof. destruct sig, sig'; reflexivity. Qed.

Lemma fired_subscribed (sig sig' : Signal) (c : Container) :
  fired sig' (subscribed sig c) = fired sig' c.
Proof.
  unfold subscribed, fired.
  destruct sig, sig'; simpl;
    destruct (Rx.isStopped (onEnter c)) eqn:E1;
    destruct (Rx.isStopped (onExit c)) eqn:E2; simpl; auto.
Qed.

Lemma fired_step (sig : Signal) (op : Op) (c : Container) :
  fired sig c = true -> fired sig (step op c) = true.
Proof.
  apply step_closed with (P := fun c => fired sig c = true).
  - intros c1 c2 (E1 & E2 & _); unfold fired; destruct sig; simpl; congruence.
  - intros s c1 H; rewrite fired_finalized; destruct s, sig; auto.
  - intros s c1 H; rewrite fired_subscribed; exact H.
Qed.

Lemma fired_run (sig : Signal) (tr : list Op) (c : Container) :
  fired sig c = true -> fired sig (run tr c) = true.
Proof.
  revert c; induction tr as [|op tr IH]; intros c H; [exact H|].
  apply IH, fired_step, H.
Qed.

(** A signal fires along a trace exactly when it has not fired before the
    trace and has fired after it. *)
Lemma firings_spec (sig : Signal) (tr : list Op) (c : Container) :
  firings sig tr c = if negb (fired sig c) && fired sig (run tr c) then 1 else 0.
Proof.
  revert c; induction tr as [|op tr IH]; intro c; simpl.
  - destruct (fired sig c); reflexivity.
  - rewrite IH.
    destruct (fired sig c) eqn:F0.
    + rewrite (fired_step sig op c F0); reflexivity.
    + destruct (fired sig (step op c)) eqn:F1; simpl.
      * rewrite (fired_run sig tr _ F1); reflexivity.
      * reflexivity.
Qed.

Lemma firings_le (sig : Signal) (tr : list Op) (c : Container) :
  firings sig tr c <= 1.
Proof.
  rewrite firings_spec; destruct (negb (fired sig c) && fired sig (run tr c)); lia.
Qed.

(** Finalising a signal that has fired changes nothing at all. *)
Lemma finalized_again (sig : Signal) (c : Container) :
  Inv c -> fired sig c = true -> finalized sig c = c.
Proof.
  destruct c as [ar an ph [sx ox] [se oe] st cfg z cl d n].
  unfold Inv, InvV, fired, finalized; destruct sig; simpl;
    intros (_ & _ & _ & _ & _ & SE & SX) F; subst.
  - rewrite (SE eq_refl); simpl; rewrite app_nil_r; reflexivity.
  - rewrite (SX eq_refl); simpl; rewrite app_nil_r; reflexivity.
Qed.

(** *** The zone and the exit callbacks *)

Lemma zoneFirst_finalized (sig : Signal) (c : Container) :
  zoneFirst (finalized sig c) = zoneFirst c.
Proof. destruct sig; reflexivity. Qed.

Lemma zoneFirst_drained (cbs : list ZoneCallback) (c : Container) :
  zoneFirst (drained cbs c) = zoneFirst c.
Proof.
  revert c; induction cbs as [|cb cbs IH]; intro c; [reflexivity|].
  cbn [drained fold_left]; fold (drained cbs (finalized Exited c)).
  rewrite IH; apply zoneFirst_finalized.
Qed.

Lemma fired_drained (cbs : list ZoneCallback) (c : Container) :
  cbs <> [] -> fired Exited (drained cbs c) = true.
Proof.
  destruct cbs as [|cb cbs]; [congruence|intros _].
  cbn [drained fold_left]; fold (drained cbs (finalized Exited c)).
  apply drained_closed with (P := fun c => fired Exited c = true).
  - intros s c1 H; rewrite fired_finalized; destruct s; auto.
  - reflexivity.
Qed.

Lemma exitSecured_step (op : Op) (c : Container) :
  exitSecured c -> exitSecured (step op c).
Proof.
  intros [F|Z]; [left; apply fired_step, F|].
  destruct op.
  - right; destruct (step_AttachComponentPortal portal c) as (h & l & ->); exact Z.
  - right; exact Z.
  - right; rewrite step_OnAnimationEnd; cbv zeta.
    assert (Z1 : zoneFirst (if schedulesExit event
                   then set_zoneFirst (zoneFirst c ++ [CompleteExit]) c else c) <> []).
    { destruct (schedulesExit event); [|exact Z].
      simpl; destruct (zoneFirst c); simpl; congruence. }
    destruct (toState event =? "visible"); [rewrite zoneFirst_finalized|]; exact Z1.
  - right; exact Z.
  - right; exact Z.
  - right; exact Z.
  - right; exact Z.
  - right; rewrite step_NgOnDestroy; simpl; destruct (zoneFirst c); simpl; congruence.
  - right; exact Z.
  - right; rewrite step_Subscribe; unfold subscribed.
    destruct (Rx.isStopped (subject sig c)); destruct sig; exact Z.
  - left; rewrite step_MicrotaskEmpty; apply fired_drained, Z.
Qed.

Lemma exitSecured_run (tr : list Op) (c : Container) :
  exitSecured c -> exitSecured (run tr c).
Proof.
  revert c; induction tr as [|op tr IH]; intros c H; [exact H|].
  apply IH, exitSecured_step, H.
Qed.

Lemma completesExit_secures (op : Op) (c : Container) :
  completesExit op = true -> zoneFirst (step op c) <> [].
Proof.
  destruct op; try discriminate; cbn [completesExit]; intro H.
  - rewrite step_OnAnimationEnd, H; cbv zeta.
    destruct (toState event =? "visible"); [rewrite zoneFirst_finalized|];
      simpl; destruct (zoneFirst c); simpl; congruence.
  - rewrite step_NgOnDestroy; simpl; destruct (zoneFirst c); simpl; congruence.
Qed.

(** After [_completeExit] was called and the zone emitted
    [onMicrotaskEmpty], the exited signal has fired. *)
Lemma exit_fires_after_drain (tr1 tr2 tr3 : list Op) (op : Op) (c : Container) :
  completesExit op = true ->
  fired Exited (run (tr1 ++ op :: tr2 ++ MicrotaskEmpty :: tr3) c) = true.
Proof.
  intro H.
  rewrite run_app; cbn [run]; rewrite run_app; cbn [run].
  apply fired_run.
  assert (S : exitSecured (run tr2 (step op (run tr1 c)))).
  { apply exitSecured_run; right; apply completesExit_secures, H. }
  destruct S as [F|Z]; [apply fired_step, F|].
  rewrite step_MicrotaskEmpty; apply fired_drained, Z.
Qed.

(** *** Every subscriber is served *)

(** Somebody who has been told something is told nothing more. *)
Lemma settled_finalized (sig : Signal) (o : Rx.Observer) (k k' : Rx.Notification) (c : Container) :
  Inv c -> received o k (delivered c) <> 0 ->
  received o k' (delivered (finalized sig c)) = received o k' (delivered c).
Proof.
  destruct c as [ar an ph [sx ox] [se oe] st cfg z cl d n].
  unfold Inv, InvV; destruct sig; simpl;
    intros (ND & FR & UN & WA & ON & SE & SX) R;
    rewrite received_app, received_final_absent; auto;
    intro A; apply R, WA, in_or_app; auto.
Qed.

Lemma settled_subscribed (sig : Signal) (o : Rx.Observer) (k k' : Rx.Notification) (c : Container) :
  Inv c -> received o k (delivered c) <> 0 ->
  received o k' (delivered (subscribed sig c)) = received o k' (delivered c).
Proof.
  destruct c as [ar an ph [sx ox] [se oe] st cfg z cl d n].
  unfold Inv, InvV, subscribed;
    intros (ND & FR & UN & WA & ON & SE & SX) R; simpl in *.
  assert (D : n <> o) by (intros <-; apply R, UN; lia).
  destruct (received_one o n k' Rx.Complete) as [_ Z].
  destruct sig; simpl; [destruct se | destruct sx]; simpl; auto;
    rewrite received_app, (Z D); lia.
Qed.

Lemma served_same (sig : Signal) (o : Rx.Observer) (c c' : Container) :
  sameSignals c c' -> served sig o c -> served sig o c'.
Proof.
  intros (E1 & E2 & E3 & E4); unfold served, fired.
  destruct sig; simpl; rewrite ?E1, ?E2, E3; auto.
Qed.

Lemma served_finalized (sig s : Signal) (o : Rx.Observer) (c : Container) :
  Inv c -> served sig o c -> served sig o (finalized s c).
Proof.
  intros I [[A F]|R].
  - destruct c as [ar an ph [sx ox] [se oe] st cfg z cl d n].
    destruct I as (ND & FR & UN & WA & ON & SE & SX).
    unfold served, fired in *; simpl in *.
    destruct sig, s; simpl in *; subst; auto.
    + right; rewrite !received_app, WA by (apply in_or_app; auto).
      rewrite (received_tell_other o Rx.Complete Rx.Next) by discriminate.
      rewrite received_tell_once; auto.
      eapply NoDup_app_remove_r; exact ND.
    + right; rewrite !received_app, WA by (apply in_or_app; auto).
      rewrite (received_tell_other o Rx.Complete Rx.Next) by discriminate.
      rewrite received_tell_once; auto.
      eapply NoDup_app_remove_l; exact ND.
  - right; rewrite (settled_finalized s o Rx.Complete); auto; lia.
Qed.

Lemma served_subscribed (sig s : Signal) (o : Rx.Observer) (c : Container) :
  Inv c -> served sig o c -> served sig o (subscribed s c).
Proof.
  intros I [[A F]|R].
  - left; rewrite fired_subscribed; split; [|exact F].
    unfold subscribed, fired in *.
    destruct sig, s; simpl in *;
      try rewrite F;
      try destruct (Rx.isStopped (onEnter c)); try destruct (Rx.isStopped (onExit c));
      simpl; auto; apply in_or_app; auto.
  - right; rewrite (settled_subscribed s o Rx.Complete); auto; lia.
Qed.

(** Subscribing serves the new subscriber: at once if the signal has
    fired, by putting it among the observers otherwise. *)
Lemma served_new (sig : Signal) (c : Container) :
  Inv c -> served sig (nextObserver c) (subscribed sig c).
Proof.
  destruct c as [ar an ph [sx ox] [se oe] st cfg z cl d n].
  intros (ND & FR & UN & WA & ON & SE & SX); simpl in *.
  unfold served, subscribed, fired.
  destruct sig; simpl; [destruct se | destruct sx]; simpl.
  - right; rewrite received_app, UN by lia.
    unfold received; simpl; rewrite Nat.eqb_refl; reflexivity.
  - left; split; [apply in_or_app; simpl; auto|reflexivity].
  - right; rewrite received_app, UN by lia.
    unfold received; simpl; rewrite Nat.eqb_refl; reflexivity.
  - left; split; [apply in_or_app; simpl; auto|reflexivity].
Qed.

Lemma served_run (sig : Signal) (o : Rx.Observer) (tr : list Op) (c : Container) :
  Inv c -> served sig o c -> Inv (run tr c) /\ served sig o (run tr c).
Proof.
  intros I S.
  apply run_closed with (P := fun c => Inv c /\ served sig o c); [| | |auto].
  - intros c1 c2 E [I1 S1]; split; [eapply Inv_same|eapply served_same]; eauto.
  - intros s c1 [I1 S1]; split; [apply Inv_finalized|apply served_finalized]; auto.
  - intros s c1 [I1 S1]; split; [apply Inv_subscribed|apply served_subscribed]; auto.
Qed.

(** What somebody has been told once stays what it is along every
    trace. *)
Lemma settled_run (o : Rx.Observer) (k : Rx.Notification) (tr : list Op) (c : Container) :
  Inv c -> received o k (delivered c) <> 0 ->
  forall k', received o k' (delivered (run tr c)) = received o k' (delivered c).
Proof.
  intros I R.
  assert (H : Inv (run tr c) /\
              forall k', received o k' (delivered (run tr c)) = received o k' (delivered c)).
  { apply run_closed with
      (P := fun c' => Inv c' /\
              forall k', received o k' (delivered c') = received o k' (delivered c));
      [| | |auto].
    - intros c1 c2 E [I1 S1]; split; [eapply Inv_same; eauto|].
      destruct E as (_ & _ & E & _); rewrite E; exact S1.
    - intros s c1 [I1 S1]; split; [apply Inv_finalized; exact I1|].
      intro k'; rewrite (settled_finalized s o k); auto.
      rewrite S1; exact R.
    - intros s c1 [I1 S1]; split; [apply Inv_subscribed; exact I1|].
      intro k'; rewrite (settled_subscribed s o k); auto.
      rewrite S1; exact R. }
  apply H.
Qed.

(** A subscriber who arrives after the firing is told [Complete] and no
    value, then and for ever. *)
Lemma late_subscriber (sig : Signal) (tr : list Op) (c : Container) :
  Inv c -> fired sig c = true ->
  let o := nextObserver c in
  delivered (subscribed sig c) = delivered c ++ [(o, Rx.Complete)] /\
  received o Rx.Complete (delivered (run tr (subscribed sig c))) = 1 /\
  received o Rx.Next (delivered (run tr (subscribed sig c))) = 0.
Proof.
  intros I F o.
  assert (D : delivered (subscribed sig c) = delivered c ++ [(o, Rx.Complete)]).
  { unfold subscribed; unfold fired in F; rewrite F; reflexivity. }
  assert (U : forall k, received o k (delivered c) = 0).
  { intro k; destruct I as (_ & _ & UN & _); apply UN; unfold o; lia. }
  assert (R1 : received o Rx.Complete (delivered (subscribed sig c)) = 1).
  { rewrite D, received_app, U; unfold received; simpl.
    rewrite Nat.eqb_refl; reflexivity. }
  assert (R0 : received o Rx.Next (delivered (subscribed sig c)) = 0).
  { rewrite D, received_app, U; unfold received; simpl.
    rewrite Nat.eqb_refl; reflexivity. }
  assert (S : forall k', received o k' (delivered (run tr (subscribed sig c)))
                        = received o k' (delivered (subscribed sig c))).
  { apply (settled_run o Rx.Complete); [apply Inv_subscribed, I|].
    rewrite R1; discriminate. }
  rewrite !S; auto.
Qed.

(** Whoever subscribes to a signal, at any point of any trace, has been
    told [Complete] exactly once as soon as the signal has fired. *)
Lemma subscriber_completed (sig : Signal) (tr1 tr2 : list Op) :
  let o := nextObserver (run tr1 newContainer) in
  let c := run (tr1 ++ Subscribe sig :: tr2) newContainer in
  fired sig c = true -> received o Rx.Complete (delivered c) = 1.
Proof.
  cbv zeta; rewrite run_app; cbn [run]; rewrite step_Subscribe.
  pose proof (Inv_run tr1) as I.
  destruct (served_run sig (nextObserver (run tr1 newContainer)) tr2
              (subscribed sig (run tr1 newContainer))) as [_ [[_ F]|R]].
  - apply Inv_subscribed, I.
  - apply served_new, I.
  - congruence.
  - auto.
Qed.

(** *** The animation state and the entered signal, step by step *)

Lemma animationState_finalized (sig : Signal) (c : Container) :
  animationState (finalized sig c) = animationState c.
Proof. destruct sig; reflexivity. Qed.

Lemma animationState_drained (cbs : list ZoneCallback) (c : Container) :
  animationState (drained cbs c) = animationState c.
Proof.
  revert c; induction cbs as [|cb cbs IH]; intro c; [reflexivity|].
  cbn [drained fold_left]; fold (drained cbs (finalized Exited c)).
  rewrite IH; apply animationState_finalized.
Qed.

Lemma entered_drained (cbs : list ZoneCallback) (c : Container) :
  onEnter (drained cbs c) = onEnter c.
Proof.
  revert c; induction cbs as [|cb cbs IH]; intro c; [reflexivity|].
  cbn [drained fold_left]; fold (drained cbs (finalized Exited c)).
  rewrite IH; reflexivity.
Qed.

(** Only [enter], [_onEnter] and [exit] assign [animationState]. *)
Lemma animationState_step (op : Op) (c : Container) :
  animationState (step op c) =
    match op with
    | Enter | OnEnter => visible
    | Exit => complete
    | _ => animationState c
    end.
Proof.
  destruct op; try reflexivity.
  - destruct (step_AttachComponentPortal portal c) as (h & l & ->); reflexivity.
  - rewrite step_OnAnimationEnd; cbv zeta.
    destruct (toState event =? "visible"); rewrite ?animationState_finalized;
      destruct (schedulesExit event); reflexivity.
  - rewrite step_Subscribe; unfold subscribed.
    destruct (Rx.isStopped (subject sig c)); destruct sig; reflexivity.
  - rewrite step_MicrotaskEmpty, animationState_drained; reflexivity.
Qed.

(** Only a report of a transition into ['visible'] fires the entered
    signal. *)
Lemma entered_step (op : Op) (c : Container) :
  fired Entered (step op c) =
    match op with
    | OnAnimationEnd e => (toState e =? "visible") || fired Entered c
    | _ => fired Entered c
    end.
Proof.
  destruct op; try reflexivity.
  - destruct (step_AttachComponentPortal portal c) as (h & l & ->); reflexivity.
  - rewrite step_OnAnimationEnd; cbv zeta.
    destruct (toState event =? "visible"); rewrite ?fired_finalized;
      destruct (schedulesExit event); reflexivity.
  - rewrite step_Subscribe; apply fired_subscribed.
  - rewrite step_MicrotaskEmpty; unfold fired; simpl.
    rewrite entered_drained; reflexivity.
Qed.

Lemma requested_not_visible (seen : list KeyboardState) (e : AnimationEvent) :
  ~ In visible seen -> requested seen e = true -> (toState e =? "visible") = false.
Proof.
  unfold requested; intros A R.
  apply existsb_exists in R; destruct R as (k & K & E).
  apply String.eqb_eq in E; rewrite E.
  destruct k; try reflexivity.
  destruct K as [K|K]; [discriminate|contradiction].
Qed.

(** Without a call of [enter] or [_onEnter], a faithful engine never
    reports ['visible'] and the entered signal does not fire. *)
Lemma entered_needs_request (tr : list Op) (seen : list KeyboardState) (c : Container) :
  ~ In visible seen ->
  animationState c <> visible ->
  fired Entered c = false ->
  engineFaithful seen tr c = true ->
  fired Entered (run tr c) = true ->
  In Enter tr \/ In OnEnter tr.
Proof.
  revert seen c; induction tr as [|op tr IH]; intros seen c A V F E R.
  - simpl in R; congruence.
  - cbn [engineFaithful] in E; apply andb_prop in E; destruct E as [E1 E2].
    cbn [run] in R.
    assert (K : op = Enter \/ op = OnEnter \/
                (animationState (step op c) <> visible /\
                 fired Entered (step op c) = false)).
    { pose proof (animationState_step op c) as HS.
      pose proof (entered_step op c) as HF.
      destruct op; auto; right; right; rewrite HS, HF; split; auto; try discriminate.
      rewrite (requested_not_visible seen event A E1), F; reflexivity. }
    destruct K as [->|[->|[V' F']]]; [left; left; auto|right; left; auto|].
    destruct (IH (animationState (step op c) :: seen) (step op c)) as [B|B]; auto.
    + simpl; intros [B|B]; auto.
    + left; right; exact B.
    + right; right; exact B.
Qed.

(** ** The portal host under the other operations *)

Lemma portalHost_finalized (sig : Signal) (c : Container) :
  _portalHost (finalized sig c) = _portalHost c.
Proof. destruct sig; reflexivity. Qed.

Lemma portalHost_drained (cbs : list ZoneCallback) (c : Container) :
  _portalHost (drained cbs c) = _portalHost c.
Proof.
  revert c; induction cbs as [|cb cbs IH]; intro c; [reflexivity|].
  cbn [drained fold_left]; fold (drained cbs (finalized Exited c)).
  rewrite IH; reflexivity.
Qed.

Lemma attached_only_by_attach (op : Op) (c : Container) :
  isAttached (result op c) = true -> exists p, op = AttachComponentPortal p.
Proof.
  destruct op; [eauto|..]; unfold result, perform, observe;
    match goal with
    | |- context [let (_, _) := ?m c in _] => destruct (m c) as [[?|?] ?]
    end; simpl; discriminate.
Qed.


Lemma drained_again (cbs : list ZoneCallback) (c : Container) :
  Inv c -> fired Exited c = true -> drained cbs c = c.
Proof.
  intros I F; induction cbs as [|cb cbs IH]; [reflexivity|].
  cbn [drained fold_left]; rewrite finalized_again by assumption; exact IH.
Qed.

Lemma engineFaithful_prefix (tr1 tr2 : list Op) (seen : list KeyboardState) (c : Container) :
  engineFaithful seen (tr1 ++ tr2) c = true -> engineFaithful seen tr1 c = true.
Proof.
  revert seen c; induction tr1 as [|op tr1 IH]; intros seen c H; [reflexivity|].
  cbn [app engineFaithful] in *.
  apply andb_prop in H; destruct H as [H1 H2].
  rewrite H1, (IH _ _ H2); reflexivity.
Qed.

Lemma schedulesExit_not_visible (e : AnimationEvent) :
  schedulesExit e = true -> (toState e =? "visible") = false.
Proof.
  unfold schedulesExit; intro H; apply orb_prop in H.
  destruct H as [H|H]; apply String.eqb_eq in H; rewrite H; reflexivity.
Qed.

(** ** The exited signal *)

(** C1, as stated, fails: after [exit()] and the report of the transition
    into ['complete'] the exited signal has not fired and its subscriber
    has been told nothing; it fires when [onMicrotaskEmpty] emits next. *)
Lemma exit_report_does_not_fire_at_once :
  let tr := [Subscribe Exited; Exit; OnAnimationEnd reportComplete] in
  fired Exited (run tr newContainer) = false /\
  firings Exited tr newContainer = 0 /\
  delivered (run tr newContainer) = [] /\
  delivered (run (tr ++ [MicrotaskEmpty]) newContainer) = [(0, Rx.Next); (0, Rx.Complete)].
Proof. repeat split. Qed.

(** ** The entered signal *)

(** C4, as stated, fails: the callback does not finalize the exited signal
    when it is told of a transition into ['complete']; the subscriber has
    been told nothing when it returns. *)
Lemma report_complete_does_not_finalize :
  let c := run [Subscribe Exited] newContainer in
  fired Exited (exec (onAnimationEnd reportComplete) c) = false /\
  delivered (exec (onAnimationEnd reportComplete) c) = [] /\
  zoneFirst (exec (onAnimationEnd reportComplete) c) = [CompleteExit].
Proof. repeat split. Qed.

(** C4, amended: on a report with [toState] ['complete'] or ['void'] the
    callback only registers the finalisation of the exited signal on the
    zone, changing neither signal nor the animation state, and the signal
    is finalized at the next emission of [onMicrotaskEmpty]; with
    ['visible'] the entered signal is finalized within the callback; any
    other [toState] changes nothing; finalising a signal that is already
    finalized changes nothing, so that nobody sees a second firing; and the
    dispatch reads [toState] only. *)
Theorem onAnimationEnd_dispatch (e : AnimationEvent) (tr : list Op) :
  let c := run tr newContainer in
  let c' := exec (onAnimationEnd e) c in
  eval (onAnimationEnd e) c = Return tt /\
  (schedulesExit e = true ->
     c' = set_zoneFirst (zoneFirst c ++ [CompleteExit]) c /\
     fired Exited (step MicrotaskEmpty c') = true /\
     (fired Exited c = true -> delivered (step MicrotaskEmpty c') = delivered c)) /\
  (toState e = "visible" ->
     c' = finalized Entered c /\ fired Entered c' = true /\
     (fired Entered c = true -> c' = c)) /\
  (schedulesExit e = false -> toState e <> "visible" -> c' = c) /\
  (forall o k, received o k (delivered c') <= 1) /\
  (forall e', toState e' = toState e -> onAnimationEnd e' c = onAnimationEnd e c).
Proof.
  intros c c'.
  assert (I : Inv c) by apply Inv_run.
  assert (E : c' = step (OnAnimationEnd e) c).
  { unfold c', step, exec, perform, observe.
    destruct (onAnimationEnd e c); reflexivity. }
  split; [|split; [|split; [|split; [|split]]]].
  - unfold eval, onAnimationEnd, bind, _completeExit, onSubject, modify, ret.
    destruct ((toState e =? "void") || (toState e =? "complete"));
      destruct (toState e =? "visible"); reflexivity.
  - intro H.
    assert (E1 : c' = set_zoneFirst (zoneFirst c ++ [CompleteExit]) c).
    { rewrite E, step_OnAnimationEnd, H, (schedulesExit_not_visible e H).
      reflexivity. }
    split; [exact E1|split].
    + rewrite step_MicrotaskEmpty; apply fired_drained.
      rewrite E1; simpl; destruct (zoneFirst c); simpl; congruence.
    + intro F; rewrite E1, step_MicrotaskEmpty, drained_again; auto.
  - intro H.
    assert (E1 : c' = finalized Entered c).
    { rewrite E, step_OnAnimationEnd, H; cbv zeta.
      unfold schedulesExit; rewrite H; reflexivity. }
    split; [exact E1|split].
    + rewrite E1; reflexivity.
    + intro F; rewrite E1; apply finalized_again; assumption.
  - intros H V; rewrite E, step_OnAnimationEnd, H; cbv zeta.
    destruct (String.eqb_spec (toState e) "visible"); [contradiction|reflexivity].
  - intros o k; rewrite E.
    pose proof (Inv_run (tr ++ [OnAnimationEnd e])) as I'.
    rewrite run_app in I'; apply I'.
  - intros e' T; unfold onAnimationEnd; rewrite T; reflexivity.
Qed.

(** C5, as stated, fails: [_onEnter()] alone requests the entrance, and the
    entered signal fires on the report of it although [enter()] was never
    called. *)
Lemma entered_fires_without_enter :
  let tr := [OnEnter; OnAnimationEnd reportVisible] in
  ~ In Enter tr /\
  engineFaithful [initial] tr newContainer = true /\
  fired Entered (run tr newContainer) = true.
Proof.
  split; [|split; reflexivity].
  simpl; intros [H|[H|[]]]; discriminate.
Qed.

(** C5, amended: with an animation engine that reports only transitions
    into states the container has requested, the entered signal has fired
    only when [enter()] or [_onEnter()] was called before; the exited
    signal fires with and without a call of [exit()], destruction alone
    being enough. *)
Theorem entered_only_after_request (tr1 tr2 : list Op) :
  engineFaithful [initial] (tr1 ++ tr2) newContainer = true ->
  fired Entered (run tr1 newContainer) = true ->
  (In Enter tr1 \/ In OnEnter tr1) /\
  fired Exited (run [NgOnDestroy; MicrotaskEmpty] newContainer) = true /\
  fired Exited (run [Exit; OnAnimationEnd reportComplete; MicrotaskEmpty] newContainer) = true.
Proof.
  intros E F; split; [|split; reflexivity].
  apply (entered_needs_request tr1 [initial] newContainer); auto.
  - simpl; intros [H|[]]; discriminate.
  - discriminate.
  - eapply engineFaithful_prefix; exact E.
Qed.

Lemma entered_only_after_request_witness :
  engineFaithful [initial] ([Enter; OnAnimationEnd reportVisible] ++ [Exit]) newContainer = true /\
  fired Entered (run [Enter; OnAnimationEnd reportVisible] newContainer) = true /\
  (In Enter [Enter; OnAnimationEnd reportVisible] \/
   In OnEnter [Enter; OnAnimationEnd reportVisible]).
Proof.
  split; [reflexivity|split; [reflexivity|]].
  apply (entered_only_after_request [Enter; OnAnimationEnd reportVisible] [Exit]);
    reflexivity.
Defined.

(** C8: when the state is ['visible'] already, [enter()] leaves the whole
    container as it is; [enter()] never tells a subscriber anything; and
    along every trace, with any number of calls of [enter()], the entered
    signal fires at most once and nobody is told anything twice. *)
Theorem enter_is_idempotent (c : Container) (tr : list Op) :
  animationState c = visible ->
  enter c = (Return tt, c) /\
  (forall c', delivered (step Enter c') = delivered c' /\
              fired Entered (step Enter c') = fired Entered c' /\
              step Enter (step Enter c') = step Enter c') /\
  firings Entered tr newContainer <= 1 /\
  (forall o k, received o k (delivered (run tr newContainer)) <= 1).
Proof.
  intro V; split; [|split; [|split]].
  - destruct c; simpl in V; subst; reflexivity.
  - intro c'; repeat split.
  - apply firings_le.
  - intros o k; apply (Inv_run tr).
Qed.

Lemma enter_is_idempotent_witness :
  animationState (step Enter newContainer) = visible /\
  enter (step Enter newContainer) = (Return tt, step Enter newContainer).
Proof.
  split; [reflexivity|].
  apply (enter_is_idempotent (step Enter newContainer) [Enter; Enter]); reflexivity.
Defined.

(** C9: [_onEnter()] is not a pure observer: it returns the entered signal
    and sets [animationState] to ['visible'], exactly what [enter()] does to
    the container, and it modifies no other field; so subscribing through
    [_onEnter()] requests the entrance although [enter()] was never
    called. *)
Theorem onEnter_requests_entrance (c : Container) :
  _onEnter c = (Return Entered, set_animationState visible c) /\
  exec _onEnter c = exec enter c /\
  animationState (exec _onEnter c) = visible /\
  (attrRole (exec _onEnter c) = attrRole c /\
   animState (exec _onEnter c) = animState c /\
   _portalHost (exec _onEnter c) = _portalHost c /\
   onExit (exec _onEnter c) = onExit c /\
   onEnter (exec _onEnter c) = onEnter c /\
   keyboardConfig (exec _onEnter c) = keyboardConfig c /\
   zoneFirst (exec _onEnter c) = zoneFirst c /\
   classList (exec _onEnter c) = classList c /\
   delivered (exec _onEnter c) = delivered c /\
   nextObserver (exec _onEnter c) = nextObserver c) /\
  animationState (run [OnEnter; Subscribe Entered] c) = visible.
Proof.
  split; [reflexivity|split; [reflexivity|split; [reflexivity|split]]].
  - repeat split.
  - cbn [run]; rewrite !animationState_step; reflexivity.
Qed.

(** ** Destruction *)



(** ** Further properties of the component *)

(** *** Step equations for the remaining fields *)

Lemma exec_step_attach (p : ComponentPortal) (c : Container) :
  exec (attachComponentPortal p) c = step (AttachComponentPortal p) c.
Proof.
  unfold exec, step, perform, observe.
  destruct (attachComponentPortal p c); reflexivity.
Qed.

Lemma zoneFirst_subscribed (sig : Signal) (c : Container) :
  zoneFirst (subscribed sig c) = zoneFirst c.
Proof.
  unfold subscribed; destruct (Rx.isStopped (subject sig c)); destruct sig; reflexivity.
Qed.

Lemma zoneFirst_step (op : Op) (c : Container) :
  zoneFirst (step op c) =
    match op with
    | MicrotaskEmpty => []
    | _ => if completesExit op then zoneFirst c ++ [CompleteExit] else zoneFirst c
    end.
Proof.
  destruct op; try reflexivity.
  - destruct (step_AttachComponentPortal portal c) as (h & l & ->); reflexivity.
  - rewrite step_OnAnimationEnd; cbv zeta; cbn [completesExit].
    destruct (toState event =? "visible"); rewrite ?zoneFirst_finalized;
      destruct (schedulesExit event); reflexivity.
  - rewrite step_Subscribe; apply zoneFirst_subscribed.
  - rewrite step_MicrotaskEmpty, zoneFirst_drained; reflexivity.
Qed.

Lemma exited_drained (cbs : list ZoneCallback) (c : Container) :
  fired Exited (drained cbs c) =
    match cbs with [] => fired Exited c | _ => true end.
Proof.
  destruct cbs as [|cb cbs]; [reflexivity|].
  apply fired_drained; discriminate.
Qed.

(** Only an emission of [onMicrotaskEmpty] with a pending callback fires
    the exited signal. *)
Lemma exited_step (op : Op) (c : Container) :
  fired Exited (step op c) =
    match op with
    | MicrotaskEmpty => match zoneFirst c with [] => fired Exited c | _ => true end
    | _ => fired Exited c
    end.
Proof.
  destruct op; try reflexivity.
  - destruct (step_AttachComponentPortal portal c) as (h & l & ->); reflexivity.
  - rewrite step_OnAnimationEnd; cbv zeta.
    destruct (toState event =? "visible"); rewrite ?fired_finalized;
      destruct (schedulesExit event); reflexivity.
  - rewrite step_Subscribe; apply fired_subscribed.
  - rewrite step_MicrotaskEmpty, exited_drained; reflexivity.
Qed.

Lemma run_snoc (tr : list Op) (op : Op) (c : Container) :
  run (tr ++ [op]) c = step op (run tr c).
Proof. rewrite run_app; reflexivity. Qed.

(** *** The exited signal fires only through [_completeExit] and the zone *)

(** X1: the exited signal has fired after a trace exactly when the trace
    holds a call of [_completeExit] -- [ngOnDestroy] or a report of a
    transition into ['complete'] or ['void'] -- followed, at some point, by
    an emission of [onMicrotaskEmpty]; [exit()] alone, reports without an
    emission and emissions without a pending callback never fire it. *)
Theorem exited_fires_iff_completed_and_drained (tr : list Op) :
  fired Exited (run tr newContainer) = true <->
  exists tr1 op tr2 tr3,
    tr = tr1 ++ op :: tr2 ++ MicrotaskEmpty :: tr3 /\ completesExit op = true.
Proof.
  split.
  - assert (H : (fired Exited (run tr newContainer) = true ->
                 exists tr1 op tr2 tr3,
                   tr = tr1 ++ op :: tr2 ++ MicrotaskEmpty :: tr3 /\
                   completesExit op = true) /\
                (zoneFirst (run tr newContainer) <> [] ->
                 exists tr1 op tr2,
                   tr = tr1 ++ op :: tr2 /\ completesExit op = true)).
    { induction tr as [|op tr [IH1 IH2]] using rev_ind.
      - split; [discriminate|intro Z; elim Z; reflexivity].
      - rewrite run_snoc, exited_step, zoneFirst_step; split.
        + intro F.
          assert (K : fired Exited (run tr newContainer) = true \/
                      (op = MicrotaskEmpty /\ zoneFirst (run tr newContainer) <> [])).
          { destruct op; auto.
            destruct (zoneFirst (run tr newContainer)); auto.
            right; split; [reflexivity|discriminate]. }
          destruct K as [K|[-> K]].
          * destruct (IH1 K) as (t1 & o & t2 & t3 & -> & C).
            exists t1, o, t2, (t3 ++ [op]); split; [|exact C].
            rewrite <- !app_assoc; cbn [app]; rewrite <- !app_assoc; reflexivity.
          * destruct (IH2 K) as (t1 & o & t2 & -> & C).
            exists t1, o, t2, []; split; [|exact C].
            rewrite <- !app_assoc; reflexivity.
        + intro Z.
          destruct (completesExit op) eqn:C.
          * exists tr, op, []; auto.
          * assert (Z' : zoneFirst (run tr newContainer) <> [])
              by (destruct op; try exact Z; elim Z; reflexivity).
            destruct (IH2 Z') as (t1 & o & t2 & -> & C').
            exists t1, o, (t2 ++ [op]); split; [|exact C'].
            rewrite <- !app_assoc; reflexivity. }
    apply H.
  - intros (tr1 & op & tr2 & tr3 & -> & C).
    apply exit_fires_after_drain, C.
Qed.

(** *** The entered signal fires at the report *)

(** X2: the entered signal has fired after a trace exactly when it had
    fired before or the trace holds a report of a transition into
    ['visible']; it fires within that call of [onAnimationEnd], with no
    emission of the zone needed, and whatever [animationState] is. *)
Theorem entered_fires_iff_reported (tr : list Op) (c : Container) :
  fired Entered (run tr c) = fired Entered c || existsb reportsVisible tr.
Proof.
  revert c; induction tr as [|op tr IH]; intro c; cbn [run existsb].
  - rewrite orb_false_r; reflexivity.
  - rewrite IH, entered_step.
    destruct op; cbn [reportsVisible]; rewrite ?orb_false_l; try reflexivity.
    destruct (toState event =? "visible"), (fired Entered c); reflexivity.
Qed.

(** *** The animation state *)

(** X3: after any trace [animationState] is what the last call of
    [enter()], [_onEnter()] (['visible']) or [exit()] (['complete']) in it
    assigned, and the value before the trace when there is no such call:
    no report, subscription, attachment, destruction or emission changes
    it, it never becomes ['void'], and it never returns to ['initial']. *)
Theorem animationState_is_last_assigned (tr : list Op) (c : Container) :
  animationState (run tr c) = lastAssigned tr (animationState c) /\
  (animationState c <> void -> animationState (run tr c) <> void) /\
  (animationState c <> initial -> animationState (run tr c) <> initial).
Proof.
  assert (E : forall tr c, animationState (run tr c) = lastAssigned tr (animationState c)).
  { clear; induction tr as [|op tr IH]; intro c; [reflexivity|].
    cbn [run lastAssigned]; rewrite IH, animationState_step.
    destruct op; reflexivity. }
  split; [apply E|rewrite E; clear E].
  generalize (animationState c) as k.
  induction tr as [|op tr IH]; intro k; [tauto|].
  cbn [lastAssigned].
  destruct (IH (match assigns op with Some k' => k' | None => k end)) as [V I].
  destruct op; cbn [assigns] in *; split; auto;
    intros _; (apply V || apply I); discriminate.
Qed.

(** *** The exit report and a faithful engine *)

Lemma complete_report_needs_exit (tr : list Op) (seen : list KeyboardState)
      (c : Container) (e : AnimationEvent) :
  ~ In complete seen ->
  animationState c <> complete ->
  engineFaithful seen tr c = true ->
  In (OnAnimationEnd e) tr ->
  toState e = "complete" ->
  In Exit tr.
Proof.
  revert seen c; induction tr as [|op tr IH]; intros seen c A V E I T; [destruct I|].
  cbn [engineFaithful] in E; apply andb_prop in E; destruct E as [E1 E2].
  destruct (assigns op) as [k|] eqn:G.
  - destruct op; try discriminate.
    + right; apply (IH (animationState (step Enter c) :: seen) (step Enter c)); auto.
      * simpl; intros [B|B]; [discriminate|auto].
      * rewrite animationState_step; discriminate.
      * destruct I as [I|I]; [discriminate|exact I].
    + right; apply (IH (animationState (step OnEnter c) :: seen) (step OnEnter c)); auto.
      * simpl; intros [B|B]; [discriminate|auto].
      * rewrite animationState_step; discriminate.
      * destruct I as [I|I]; [discriminate|exact I].
    + left; reflexivity.
  - assert (S : animationState (step op c) = animationState c)
      by (rewrite animationState_step; destruct op; try discriminate; reflexivity).
    destruct I as [->|I].
    + exfalso.
      unfold requested in E1; apply existsb_exists in E1.
      destruct E1 as (k & K & Q); apply String.eqb_eq in Q.
      rewrite T in Q; destruct k; try discriminate.
      destruct K as [K|K]; [discriminate|auto].
    + right; apply (IH (animationState (step op c) :: seen) (step op c)); auto.
      * rewrite S; simpl; intros [B|B]; auto.
      * rewrite S; exact V.
Qed.

(** X4: with an animation engine that reports only transitions into
    requested states, the exited signal has fired only when [ngOnDestroy]
    or [exit()] was called or a transition into ['void'] was reported. *)
Theorem exited_only_after_exit_or_destroy (tr : list Op) :
  engineFaithful [initial] tr newContainer = true ->
  fired Exited (run tr newContainer) = true ->
  In NgOnDestroy tr \/ In Exit tr \/
  exists e, In (OnAnimationEnd e) tr /\ toState e = "void".
Proof.
  intros E F.
  apply exited_fires_iff_completed_and_drained in F.
  destruct F as (tr1 & op & tr2 & tr3 & -> & C).
  destruct op; try discriminate.
  - cbn [completesExit] in C; unfold schedulesExit in C.
    apply orb_prop in C; destruct C as [C|C]; apply String.eqb_eq in C.
    + right; right; exists event; split; [|exact C].
      apply in_or_app; right; left; reflexivity.
    + right; left.
      apply (complete_report_needs_exit _ [initial] newContainer event); auto.
      * simpl; intros [B|[]]; discriminate.
      * discriminate.
      * apply in_or_app; right; left; reflexivity.
  - left; apply in_or_app; right; left; reflexivity.
Qed.

Lemma exited_only_after_exit_or_destroy_witness :
  engineFaithful [initial] [Exit; OnAnimationEnd reportComplete; MicrotaskEmpty]
    newContainer = true /\
  fired Exited (run [Exit; OnAnimationEnd reportComplete; MicrotaskEmpty] newContainer)
    = true /\
  (In NgOnDestroy [Exit; OnAnimationEnd reportComplete; MicrotaskEmpty] \/
   In Exit [Exit; OnAnimationEnd reportComplete; MicrotaskEmpty] \/
   exists e, In (OnAnimationEnd e) [Exit; OnAnimationEnd reportComplete; MicrotaskEmpty] /\
             toState e = "void").
Proof.
  split; [reflexivity|split; [reflexivity|]].
  apply (exited_only_after_exit_or_destroy
           [Exit; OnAnimationEnd reportComplete; MicrotaskEmpty]); reflexivity.
Defined.

(** *** Attachment and lifecycle do not touch each other *)

Lemma classList_finalized (sig : Signal) (c : Container) :
  classList (finalized sig c) = classList c /\
  keyboardConfig (finalized sig c) = keyboardConfig c.
Proof. destruct sig; split; reflexivity. Qed.

Lemma classList_drained (cbs : list ZoneCallback) (c : Container) :
  classList (drained cbs c) = classList c /\
  keyboardConfig (drained cbs c) = keyboardConfig c.
Proof.
  revert c; induction cbs as [|cb cbs IH]; intro c; [split; reflexivity|].
  cbn [drained fold_left]; fold (drained cbs (finalized Exited c)).
  destruct (IH (finalized Exited c)) as [-> ->]; split; reflexivity.
Qed.

(** Everything but [attachComponentPortal] leaves the portal host and the
    class list alone, and only an assignment changes the configuration. *)
Lemma host_frame (op : Op) (c : Container) :
  (forall p, op <> AttachComponentPortal p) ->
  _portalHost (step op c) = _portalHost c /\
  classList (step op c) = classList c /\
  ((forall k, op <> AssignKeyboardConfig k) ->
   keyboardConfig (step op c) = keyboardConfig c).
Proof.
  intro N; destruct op; try (repeat split; fail).
  - elim (N portal); reflexivity.
  - rewrite step_OnAnimationEnd; cbv zeta.
    destruct (toState event =? "visible");
      rewrite ?portalHost_finalized;
      rewrite ?(proj1 (classList_finalized Entered _));
      rewrite ?(proj2 (classList_finalized Entered _));
      destruct (schedulesExit event); repeat split.
  - repeat split; intro K; elim (K cfg); reflexivity.
  - rewrite step_Subscribe; unfold subscribed.
    destruct (Rx.isStopped (subject sig c)); destruct sig; repeat split.
  - rewrite step_MicrotaskEmpty, portalHost_drained.
    destruct (classList_drained (zoneFirst c) (set_zoneFirst [] c)) as [-> ->].
    repeat split.
Qed.

Lemma keyboardConfig_step (op : Op) (c : Container) :
  keyboardConfig (step op c) =
    match op with
    | AssignKeyboardConfig k => Some k
    | _ => keyboardConfig c
    end.
Proof.
  destruct op; try reflexivity;
    try (apply (host_frame _ c); discriminate).
  destruct (step_AttachComponentPortal portal c) as (h & l & ->); reflexivity.
Qed.

(** X6: [attachComponentPortal], whether it succeeds or throws, leaves the
    animation state, both signals, the pending zone callbacks, what the
    subscribers were told and the configuration as they are: attaching
    content neither starts an animation nor notifies anybody; and every
    other operation leaves the attached content and the class list of the
    host element as they are. *)
Theorem attach_and_lifecycle_are_independent (c : Container) :
  (forall p,
     let c' := exec (attachComponentPortal p) c in
     animationState c' = animationState c /\
     onEnter c' = onEnter c /\ onExit c' = onExit c /\
     zoneFirst c' = zoneFirst c /\ delivered c' = delivered c /\
     nextObserver c' = nextObserver c /\
     keyboardConfig c' = keyboardConfig c) /\
  (forall op,
     (forall p, op <> AttachComponentPortal p) ->
     _portalHost (step op c) = _portalHost c /\
     classList (step op c) = classList c).
Proof.
  split.
  - intros p c'; unfold c'; rewrite exec_step_attach.
    destruct (step_AttachComponentPortal p c) as (h & l & ->); repeat split.
  - intros op N; destruct (host_frame op c N) as (H1 & H2 & _); auto.
Qed.

(** *** What a subscriber is told, and in which order *)

Lemma inbox_app (o : Rx.Observer) (l1 l2 : list Rx.Delivery) :
  inbox o (l1 ++ l2) = inbox o l1 ++ inbox o l2.
Proof. unfold inbox; rewrite filter_app, map_app; reflexivity. Qed.

Lemma inbox_tell_absent (o : Rx.Observer) (n : Rx.Notification) (os : list Rx.Observer) :
  ~ In o os -> inbox o (Rx.tell n os) = [].
Proof.
  induction os as [|x os IH]; intro A; [reflexivity|].
  unfold inbox in *; simpl in *.
  destruct (Nat.eqb_spec x o) as [->|D]; [tauto|].
  apply IH; tauto.
Qed.

Lemma inbox_tell_once (o : Rx.Observer) (n : Rx.Notification) (os : list Rx.Observer) :
  NoDup os -> In o os -> inbox o (Rx.tell n os) = [n].
Proof.
  induction 1 as [|x os Hx ND IH]; intro A; [destruct A|].
  change (Rx.tell n (x :: os)) with ([(x, n)] ++ Rx.tell n os).
  rewrite inbox_app.
  destruct A as [->|A].
  - rewrite (inbox_tell_absent _ _ _ Hx).
    unfold inbox; simpl; rewrite Nat.eqb_refl; reflexivity.
  - rewrite IH by assumption.
    unfold inbox; simpl.
    destruct (Nat.eqb_spec x o) as [->|D]; [contradiction|reflexivity].
Qed.

Lemma inbox_final_absent (o : Rx.Observer) (b : bool) (os : list Rx.Observer) :
  ~ In o os ->
  inbox o ((if b then [] else Rx.tell Rx.Next os) ++ Rx.tell Rx.Complete os) = [].
Proof.
  intro A; rewrite inbox_app, (inbox_tell_absent o Rx.Complete os A).
  destruct b; [reflexivity|].
  rewrite (inbox_tell_absent o Rx.Next os A); reflexivity.
Qed.

Lemma inbox_final_once (o : Rx.Observer) (os : list Rx.Observer) :
  NoDup os -> In o os ->
  inbox o (Rx.tell Rx.Next os ++ Rx.tell Rx.Complete os) = [Rx.Next; Rx.Complete].
Proof.
  intros ND A; rewrite inbox_app, !inbox_tell_once by assumption; reflexivity.
Qed.

(** Somebody who was never told anything has an empty inbox. *)
Lemma inbox_silent (o : Rx.Observer) (log : list Rx.Delivery) :
  (forall k, received o k log = 0) -> inbox o log = [].
Proof.
  induction log as [|[x m] log IH]; intro Z; [reflexivity|].
  unfold inbox; simpl.
  destruct (Nat.eqb_spec x o) as [->|D].
  - specialize (Z m); unfold received in Z; simpl in Z.
    rewrite Nat.eqb_refl in Z; destruct m; simpl in Z; discriminate.
  - apply IH; intro k; specialize (Z k).
    unfold received in *; simpl in Z.
    destruct (Nat.eqb_spec x o); [contradiction|exact Z].
Qed.

Lemma inbox_one (o x : nat) (m : Rx.Notification) :
  x <> o -> inbox o [(x, m)] = [].
Proof.
  intro D; unfold inbox; simpl.
  destruct (Nat.eqb_spec x o); [contradiction|reflexivity].
Qed.

(** Once somebody has been told something, finalising and subscribing add
    nothing to the inbox. *)
Lemma inbox_settled_finalized (sig : Signal) (o : Rx.Observer) (c : Container) :
  Inv c -> inbox o (delivered c) <> [] ->
  inbox o (delivered (finalized sig c)) = inbox o (delivered c).
Proof.
  destruct c as [ar an ph [sx ox] [se oe] st cfg z cl d n].
  unfold Inv, InvV; destruct sig; simpl;
    intros (ND & FR & UN & WA & ON & SE & SX) R;
    rewrite inbox_app, inbox_final_absent, app_nil_r; auto;
    intro A; apply R, inbox_silent; intro k; apply WA, in_or_app; auto.
Qed.

Lemma inbox_settled_subscribed (sig : Signal) (o : Rx.Observer) (c : Container) :
  Inv c -> o < nextObserver c ->
  inbox o (delivered (subscribed sig c)) = inbox o (delivered c).
Proof.
  destruct c as [ar an ph [sx ox] [se oe] st cfg z cl d n].
  unfold subscribed; intros _ L; simpl in *.
  assert (D : n <> o) by lia.
  destruct sig; simpl; [destruct se | destruct sx]; simpl; auto;
    rewrite inbox_app, (inbox_one o n Rx.Complete D), app_nil_r; reflexivity.
Qed.

Lemma Inv_born (o : Rx.Observer) (c : Container) :
  Inv c -> inbox o (delivered c) <> [] -> o < nextObserver c.
Proof.
  intros (_ & _ & UN & _) R.
  destruct (Nat.lt_ge_cases o (nextObserver c)) as [L|G]; [exact L|].
  elim R; apply inbox_silent; intro k; apply UN, G.
Qed.

Lemma earlyOk_finalized (sig s : Signal) (o : Rx.Observer) (c : Container) :
  earlyOk sig o c -> earlyOk sig o (finalized s c).
Proof.
  intros [I [(A & F & B)|(F & B)]]; split; try (apply Inv_finalized, I).
  - destruct c as [ar an ph [sx ox] [se oe] st cfg z cl d n].
    destruct I as (ND & FR & UN & WA & ON & SE & SX).
    unfold fired in *; simpl in *.
    destruct sig, s; simpl in *; subst.
    + right; split; [reflexivity|].
      rewrite inbox_app, B, inbox_final_once; auto.
      eapply NoDup_app_remove_r; exact ND.
    + left; repeat split; auto.
      rewrite inbox_app, B, inbox_final_absent; auto.
      intro A'; exact (NoDup_app_apart _ _ _ ND A A').
    + left; repeat split; auto.
      rewrite inbox_app, B, inbox_final_absent; auto.
      intro A'; exact (NoDup_app_apart _ _ _ ND A' A).
    + right; split; [reflexivity|].
      rewrite inbox_app, B, inbox_final_once; auto.
      eapply NoDup_app_remove_l; exact ND.
  - right; split.
    + rewrite fired_finalized; destruct s, sig; auto.
    + rewrite inbox_settled_finalized; auto; rewrite B; discriminate.
Qed.

Lemma earlyOk_subscribed (sig s : Signal) (o : Rx.Observer) (c : Container) :
  earlyOk sig o c -> earlyOk sig o (subscribed s c).
Proof.
  intros [I [(A & F & B)|(F & B)]]; split; try (apply Inv_subscribed, I).
  - left; rewrite fired_subscribed; repeat split; auto.
    + unfold subscribed, fired in *.
      destruct sig, s; simpl in *;
        try rewrite F;
        try destruct (Rx.isStopped (onEnter c)); try destruct (Rx.isStopped (onExit c));
        simpl; auto; apply in_or_app; auto.
    + rewrite inbox_settled_subscribed; auto.
      destruct I as (_ & FR & _); apply FR.
      destruct sig; apply in_or_app; auto.
  - right; rewrite fired_subscribed; split; [exact F|].
    rewrite inbox_settled_subscribed; auto.
    apply Inv_born; auto; rewrite B; discriminate.
Qed.

Lemma earlyOk_run (sig : Signal) (o : Rx.Observer) (tr : list Op) (c : Container) :
  earlyOk sig o c -> earlyOk sig o (run tr c).
Proof.
  apply run_closed with (P := earlyOk sig o).
  - intros c1 c2 E [I H]; split; [eapply Inv_same; eauto|].
    destruct E as (E1 & E2 & E3 & E4); unfold fired.
    destruct sig; simpl in *; rewrite ?E1, ?E2, E3; exact H.
  - intros s c1; apply earlyOk_finalized.
  - intros s c1; apply earlyOk_subscribed.
Qed.

Lemma lateOk_run (sig : Signal) (o : Rx.Observer) (tr : list Op) (c : Container) :
  lateOk sig o c -> lateOk sig o (run tr c).
Proof.
  apply run_closed with (P := lateOk sig o).
  - intros c1 c2 E (I & F & B); split; [eapply Inv_same; eauto|].
    destruct E as (E1 & E2 & E3 & E4); unfold fired in *.
    destruct sig; simpl in *; rewrite ?E1, ?E2, E3; auto.
  - intros s c1 (I & F & B); split; [apply Inv_finalized, I|split].
    + rewrite fired_finalized; destruct s, sig; auto.
    + rewrite inbox_settled_finalized; auto; rewrite B; discriminate.
  - intros s c1 (I & F & B); split; [apply Inv_subscribed, I|split].
    + rewrite fired_subscribed; exact F.
    + rewrite inbox_settled_subscribed; auto.
      apply Inv_born; auto; rewrite B; discriminate.
Qed.

Lemma inbox_new (sig : Signal) (c : Container) :
  Inv c ->
  inbox (nextObserver c) (delivered (subscribed sig c)) =
    if fired sig c then [Rx.Complete] else [].
Proof.
  intro I.
  assert (Z : inbox (nextObserver c) (delivered c) = []).
  { apply inbox_silent; intro k; destruct I as (_ & _ & UN & _); apply UN; lia. }
  unfold subscribed, fired.
  destruct (Rx.isStopped (subject sig c)); simpl.
  - rewrite inbox_app, Z; unfold inbox; simpl; rewrite Nat.eqb_refl; reflexivity.
  - destruct sig; exact Z.
Qed.

(** X9: what a subscriber of either signal is told, in order, whatever
    else happens in the trace: nothing while the signal has not fired; the
    value and then [Complete] once it has fired, when the subscriber was
    there before the firing; [Complete] alone, and no value ever, when it
    subscribed after the firing.  In particular the firing of one signal
    tells the subscribers of the other nothing. *)
Theorem subscriber_inbox (sig : Signal) (tr1 tr2 : list Op) :
  let c0 := run tr1 newContainer in
  let o := nextObserver c0 in
  let c := run (tr1 ++ Subscribe sig :: tr2) newContainer in
  inbox o (delivered c) =
    if fired sig c0 then [Rx.Complete]
    else if fired sig c then [Rx.Next; Rx.Complete]
    else [].
Proof.
  intros c0 o c.
  assert (I : Inv c0) by apply Inv_run.
  assert (E : c = run tr2 (subscribed sig c0)).
  { unfold c; rewrite run_app; cbn [run]; rewrite step_Subscribe; reflexivity. }
  pose proof (inbox_new sig c0 I) as N; fold o in N.
  destruct (fired sig c0) eqn:F0.
  - destruct (lateOk_run sig o tr2 (subscribed sig c0)) as (_ & _ & B).
    + split; [apply Inv_subscribed, I|split; [|exact N]].
      rewrite fired_subscribed; exact F0.
    + rewrite E; exact B.
  - destruct (earlyOk_run sig o tr2 (subscribed sig c0)) as [_ [(_ & F & B)|(F & B)]].
    + split; [apply Inv_subscribed, I|left; repeat split].
      * unfold subscribed; unfold fired in F0; rewrite F0.
        destruct sig; simpl; apply in_or_app; right; left; reflexivity.
      * rewrite fired_subscribed; exact F0.
      * exact N.
    + rewrite E, F; exact B.
    + rewrite E, F; exact B.
Qed.

(** ** The exited signal waits for the zone *)

Lemma exited_unchanged_without_drain (tr : list Op) (c : Container) :
  ~ In MicrotaskEmpty tr -> fired Exited (run tr c) = fired Exited c.
Proof.
  revert c; induction tr as [|op tr IH]; intros c N; [reflexivity|].
  cbn [run]; rewrite IH by (intro A; apply N; right; exact A).
  rewrite exited_step; destruct op; try reflexivity.
  elim N; left; reflexivity.
Qed.

(** A call that reaches [_completeExit] fires nothing and tells nobody
    anything. *)
Lemma completesExit_silent (op : Op) (c : Container) :
  completesExit op = true ->
  fired Exited (step op c) = fired Exited c /\ delivered (step op c) = delivered c.
Proof.
  intro C; split; [rewrite exited_step; destruct op; try reflexivity; discriminate|].
  destruct op; try discriminate; cbn [completesExit] in C.
  - rewrite step_OnAnimationEnd, C, (schedulesExit_not_visible event C); reflexivity.
  - reflexivity.
Qed.

(** C1, amended: the exited signal fires exactly once per lifetime, each
    time when [onMicrotaskEmpty] emits next after [_completeExit] was
    called: (a) the report of a transition into ['complete'] or ['void'],
    with or without [exit()], and (b), (c) [ngOnDestroy], with or without
    [exit()] and a report, fire nothing and tell nobody anything
    themselves; the signal stays as it was until the zone emits, and has
    fired right after that emission.  Every subscriber to it has then been
    told [Complete] exactly once, and in no trace does the signal fire
    twice or is anybody told anything twice. *)
Theorem exited_fires_exactly_once (tr1 tr2 tr3 : list Op) (op : Op) :
  completesExit op = true ->
  let tr := tr1 ++ op :: tr2 ++ MicrotaskEmpty :: tr3 in
  firings Exited tr newContainer = 1 /\
  (forall o k, received o k (delivered (run tr newContainer)) <= 1) /\
  (forall a b, tr = a ++ Subscribe Exited :: b ->
     received (nextObserver (run a newContainer)) Rx.Complete
       (delivered (run tr newContainer)) = 1) /\
  (forall tr', firings Exited tr' newContainer <= 1) /\
  fired Exited (run (tr1 ++ [op]) newContainer) = fired Exited (run tr1 newContainer) /\
  delivered (run (tr1 ++ [op]) newContainer) = delivered (run tr1 newContainer) /\
  (~ In MicrotaskEmpty tr2 ->
   fired Exited (run (tr1 ++ op :: tr2) newContainer)
   = fired Exited (run tr1 newContainer)) /\
  fired Exited (run (tr1 ++ op :: tr2 ++ [MicrotaskEmpty]) newContainer) = true.
Proof.
  intros H tr.
  assert (F : fired Exited (run tr newContainer) = true)
    by (apply exit_fires_after_drain, H).
  destruct (completesExit_silent op (run tr1 newContainer) H) as [S1 S2].
  split; [|split; [|split; [|split; [|split; [|split; [|split]]]]]].
  - rewrite firings_spec, F; reflexivity.
  - intros o k; apply (Inv_run tr).
  - intros a b E; rewrite E in *.
    apply (subscriber_completed Exited a b), F.
  - intro tr'; apply firings_le.
  - rewrite run_snoc; exact S1.
  - rewrite run_snoc; exact S2.
  - intro N; rewrite run_app; cbn [run].
    rewrite (exited_unchanged_without_drain tr2 _ N); exact S1.
  - apply (exit_fires_after_drain tr1 tr2 [] op), H.
Qed.

Lemma exited_fires_exactly_once_witness :
  completesExit (OnAnimationEnd reportComplete) = true /\
  firings Exited
    ([Subscribe Exited; Exit] ++ OnAnimationEnd reportComplete :: [Enter]
       ++ MicrotaskEmpty :: [])
    newContainer = 1 /\
  (~ In MicrotaskEmpty [Enter] ->
   fired Exited
     (run ([Subscribe Exited; Exit] ++ OnAnimationEnd reportComplete :: [Enter]) newContainer)
   = fired Exited (run [Subscribe Exited; Exit] newContainer)).
Proof.
  split; [reflexivity|].
  destruct (exited_fires_exactly_once [Subscribe Exited; Exit] [Enter] []
              (OnAnimationEnd reportComplete) eq_refl)
    as (W1 & _ & _ & _ & _ & _ & W2 & _).
  split; [exact W1|exact W2].
Defined.

(** ** The entered signal and its subscribers *)

Lemma entered_fired_by_report (tr : list Op) (e : AnimationEvent) (c : Container) :
  toState e = "visible" -> In (OnAnimationEnd e) tr -> fired Entered (run tr c) = true.
Proof.
  intro V; revert c; induction tr as [|op tr IH]; intros c I; [destruct I|].
  cbn [run]; destruct I as [->|I]; [|apply IH, I].
  apply fired_run; rewrite entered_step, V; reflexivity.
Qed.

(** What the subscriber created at the end of [tr1] has been told after
    [tr2]. *)
Lemma inbox_of_subscriber (sig : Signal) (tr1 tr2 : list Op) :
  inbox (nextObserver (run tr1 newContainer))
    (delivered (run (tr1 ++ Subscribe sig :: tr2) newContainer)) =
    if fired sig (run tr1 newContainer) then [Rx.Complete]
    else if fired sig (run (tr1 ++ Subscribe sig :: tr2) newContainer)
         then [Rx.Next; Rx.Complete]
         else [].
Proof.
  set (c0 := run tr1 newContainer); set (o := nextObserver c0).
  assert (I : Inv c0) by apply Inv_run.
  assert (E : run (tr1 ++ Subscribe sig :: tr2) newContainer
              = run tr2 (subscribed sig c0)).
  { rewrite run_app; cbn [run]; rewrite step_Subscribe; reflexivity. }
  pose proof (inbox_new sig c0 I) as N; fold o in N.
  rewrite E.
  destruct (fired sig c0) eqn:F0.
  - destruct (lateOk_run sig o tr2 (subscribed sig c0)) as (_ & _ & B); [|exact B].
    split; [apply Inv_subscribed, I|split; [|exact N]].
    rewrite fired_subscribed; exact F0.
  - destruct (earlyOk_run sig o tr2 (subscribed sig c0)) as [_ [(_ & F & B)|(F & B)]].
    + split; [apply Inv_subscribed, I|left; repeat split].
      * unfold subscribed; unfold fired in F0; rewrite F0.
        destruct sig; simpl; apply in_or_app; right; left; reflexivity.
      * rewrite fired_subscribed; exact F0.
      * exact N.
    + rewrite F; exact B.
    + rewrite F; exact B.
Qed.

(** C3: in every trace in which the engine reports a transition into
    ['visible'], however often [enter()] is called, the entered signal
    fires exactly once, and whoever subscribes to it, before or after the
    firing, has been told [Complete] exactly once and nothing twice; a
    subscriber who was there at the firing was told the value and then
    [Complete], one who arrives after it is told [Complete], and nothing
    else, within the call of [subscribe]. *)
Theorem entered_is_fire_once (tr1 tr2 : list Op) (e : AnimationEvent) :
  toState e = "visible" ->
  In (OnAnimationEnd e) (tr1 ++ tr2) ->
  let c0 := run tr1 newContainer in
  let o := nextObserver c0 in
  let c := run (tr1 ++ Subscribe Entered :: tr2) newContainer in
  result (Subscribe Entered) c0 = Subscribed o /\
  fired Entered c = true /\
  firings Entered (tr1 ++ Subscribe Entered :: tr2) newContainer = 1 /\
  received o Rx.Complete (delivered c) = 1 /\
  received o Rx.Next (delivered c) <= 1 /\
  (forall o' k, received o' k (delivered c) <= 1) /\
  inbox o (delivered c) =
    (if fired Entered c0 then [Rx.Complete] else [Rx.Next; Rx.Complete]) /\
  (fired Entered c0 = true ->
     delivered (step (Subscribe Entered) c0) = delivered c0 ++ [(o, Rx.Complete)]) /\
  (In (OnAnimationEnd e) tr1 -> fired Entered c0 = true).
Proof.
  intros V I c0 o c.
  assert (F : fired Entered c = true).
  { apply (entered_fired_by_report _ e); [exact V|].
    apply in_app_or in I; apply in_or_app; simpl; tauto. }
  split; [|split; [|split; [|split; [|split; [|split; [|split; [|split]]]]]]].
  - unfold result, perform, observe; rewrite subscribe_run; reflexivity.
  - exact F.
  - rewrite firings_spec; fold c; rewrite F; reflexivity.
  - apply (subscriber_completed Entered tr1 tr2), F.
  - apply (Inv_run (tr1 ++ Subscribe Entered :: tr2)).
  - apply (Inv_run (tr1 ++ Subscribe Entered :: tr2)).
  - unfold o, c, c0; rewrite (inbox_of_subscriber Entered tr1 tr2).
    fold c0; fold c; rewrite F; reflexivity.
  - intro F0; rewrite step_Subscribe; unfold subscribed.
    unfold fired in F0; simpl in *; rewrite F0; reflexivity.
  - intro I1; apply (entered_fired_by_report _ e); assumption.
Qed.

Lemma entered_is_fire_once_witness :
  toState reportVisible = "visible" /\
  In (OnAnimationEnd reportVisible)
    ([Enter; Enter] ++ [OnAnimationEnd reportVisible; Enter; OnAnimationEnd reportVisible]) /\
  received (nextObserver (run [Enter; Enter] newContainer)) Rx.Complete
    (delivered
       (run ([Enter; Enter] ++ Subscribe Entered
               :: [OnAnimationEnd reportVisible; Enter; OnAnimationEnd reportVisible])
          newContainer)) = 1.
Proof.
  split; [reflexivity|split; [simpl; auto|]].
  apply (entered_is_fire_once [Enter; Enter]
           [OnAnimationEnd reportVisible; Enter; OnAnimationEnd reportVisible]
           reportVisible); [reflexivity|simpl; auto].
Defined.

(** ** What repeated attaching does *)

Lemma not_attach_dec (op : Op) :
  (exists p, op = AttachComponentPortal p) \/ (forall p, op <> AttachComponentPortal p).
Proof. destruct op; [left; eauto|right; discriminate..]. Qed.

(** What [attachComponentPortal] gives its caller and leaves behind. *)
Lemma attach_step_cases (p : ComponentPortal) (c : Container) :
  exists l, grownFrom c l /\
    ((exists e,
        result (AttachComponentPortal p) c = Threw e /\
        step (AttachComponentPortal p) c = set_classList l c /\
        (e = MdKeyboardContentAlreadyAttached <-> hasAttached (_portalHost c) = true)) \/
     (result (AttachComponentPortal p) c = Attached (mkRef p) /\
      step (AttachComponentPortal p) c =
        set_portalHost (mkPortalHost (_attachedPortal (_portalHost c)) (Some p))
          (set_classList l c) /\
      hasAttached (_portalHost c) = false /\
      exists k, keyboardConfig c = Some k)).
Proof.
  destruct (attach_cases p c) as (l & G & [(e & E & T)|(E & H & K)]);
    exists l; (split; [exact G|]); [left; exists e|right];
    unfold result, step, perform, observe; rewrite E; auto.
Qed.

(** Nothing the container does makes [hasAttached()] true. *)
Lemma hasAttached_step (op : Op) (c : Container) :
  hasAttached (_portalHost (step op c)) = hasAttached (_portalHost c).
Proof.
  destruct (not_attach_dec op) as [[p ->]|N].
  - destruct (attach_step_cases p c) as (l & _ & [(e & _ & -> & _)|(_ & -> & _)]);
      reflexivity.
  - destruct (host_frame op c N) as (-> & _); reflexivity.
Qed.

Lemma hasAttached_run (tr : list Op) (c : Container) :
  hasAttached (_portalHost (run tr c)) = hasAttached (_portalHost c).
Proof.
  revert c; induction tr as [|op tr IH]; intro c; [reflexivity|].
  cbn [run]; rewrite IH; apply hasAttached_step.
Qed.

Lemma attach_throws_iff (p : ComponentPortal) (c : Container) :
  eval (attachComponentPortal p) c = Throw MdKeyboardContentAlreadyAttached
  <-> hasAttached (_portalHost c) = true.
Proof.
  unfold eval.
  destruct (attach_cases p c) as (l & _ & [(e & -> & T)|(-> & H & _)]); simpl.
  - rewrite <- T; split; congruence.
  - rewrite H; split; discriminate.
Qed.

(** C2, defect: the guard of [attachComponentPortal] reads
    [_portalHost.hasAttached()], which nothing the container does ever
    makes true: along no trace from a new container does a call throw
    [MdKeyboardContentAlreadyAttached], and three calls in a row all give a
    handle back.  The guard itself is as claimed: the call throws that
    error exactly when [hasAttached()] holds. *)
Theorem attach_guard_never_fires :
  (forall tr c, hasAttached (_portalHost (run tr c)) = hasAttached (_portalHost c)) /\
  (forall tr p,
     result (AttachComponentPortal p) (run tr newContainer)
     <> Threw MdKeyboardContentAlreadyAttached) /\
  (forall p c,
     eval (attachComponentPortal p) c = Throw MdKeyboardContentAlreadyAttached
     <-> hasAttached (_portalHost c) = true) /\
  outcomes
    [AssignKeyboardConfig (mkConfig None); AttachComponentPortal portalX;
     AttachComponentPortal portalY; AttachComponentPortal portalZ] newContainer
  = [Done; Attached (mkRef portalX); Attached (mkRef portalY); Attached (mkRef portalZ)] /\
  successfulAttaches
    [AssignKeyboardConfig (mkConfig None); AttachComponentPortal portalX;
     AttachComponentPortal portalY; AttachComponentPortal portalZ] newContainer = 3.
Proof.
  split; [exact hasAttached_run|split; [|split; [exact attach_throws_iff|split; reflexivity]]].
  intros tr p R.
  destruct (attach_step_cases p (run tr newContainer))
    as (l & _ & [(e & E & _ & T)|(E & _)]); rewrite E in R; [|discriminate].
  injection R as ->.
  rewrite hasAttached_run in T; destruct T as [T _]; specialize (T eq_refl); discriminate.
Qed.

(** C7, defect: after [attachComponentPortal(X)] has succeeded,
    [attachComponentPortal(Y)] does not throw: it returns the handle of
    [Y], the portal host now remembers [Y] instead of [X], and
    [hasAttached()] is false before and after.  Only a host whose
    [hasAttached()] holds is refused, and then before any side effect. *)
Theorem second_attach_replaces_first :
  outcomes
    [AssignKeyboardConfig (mkConfig (Some ["md-keyboard-dark"]));
     AttachComponentPortal portalX; AttachComponentPortal portalY] newContainer
  = [Done; Attached (mkRef portalX); Attached (mkRef portalY)] /\
  _portal (_portalHost (run [AttachComponentPortal portalX] configured)) = Some portalX /\
  hasAttached (_portalHost (run [AttachComponentPortal portalX] configured)) = false /\
  _portal (_portalHost
             (run [AttachComponentPortal portalX; AttachComponentPortal portalY] configured))
  = Some portalY /\
  (forall c y,
     hasAttached (_portalHost c) = true ->
     attachComponentPortal y c = (Throw MdKeyboardContentAlreadyAttached, c)).
Proof.
  split; [reflexivity|split; [reflexivity|split; [reflexivity|split; [reflexivity|]]]].
  intros c y H; apply attach_occupied, H.
Qed.

(** C10, as stated, fails: with [keyboardConfig] assigned and an empty
    string among the extra classes, the call on an empty host faults with
    a [DOMException] after the classes before it were added, and nothing
    is attached. *)
Lemma attach_faults_on_invalid_class :
  let c := step (AssignKeyboardConfig (mkConfig (Some ["a"; ""; "b"]))) newContainer in
  hasAttached (_portalHost c) = false /\
  attachComponentPortal portalX c
  = (Throw (DOMException "SyntaxError"), set_classList ["a"] c) /\
  _portal (_portalHost (exec (attachComponentPortal portalX) c)) = None.
Proof. repeat split. Qed.

(** C10, amended: [attachComponentPortal] reads
    [keyboardConfig.extraClasses] without a guard before it delegates to
    the portal host.  On a host whose [hasAttached()] is false: with
    [keyboardConfig] assigned and every extra class a valid class token
    the call returns the handle of the portal host and adds exactly the
    configured classes -- none when [extraClasses] is absent or empty;
    with an invalid token among them it faults with a [DOMException]
    after adding the classes before that token, and the portal host is
    not touched; with [keyboardConfig] unset it faults with a
    [TypeError]; neither fault is one of the two specified errors. *)
Theorem attach_reads_keyboardConfig (c : Container) (p : ComponentPortal) :
  hasAttached (_portalHost c) = false ->
  (forall k, keyboardConfig c = Some k ->
     match extraClasses k with
     | Some cs => forallb validToken cs = true
     | None => True
     end ->
     eval (attachComponentPortal p) c = Return (mkRef p) /\
     _portal (_portalHost (exec (attachComponentPortal p) c)) = Some p /\
     (forall x, In x (classList (exec (attachComponentPortal p) c)) <->
                In x (classList c) \/
                match extraClasses k with Some cs => In x cs | None => False end) /\
     (extraClasses k = None \/ extraClasses k = Some [] ->
        classList (exec (attachComponentPortal p) c) = classList c)) /\
  (forall k good bad rest,
     keyboardConfig c = Some k ->
     extraClasses k = Some (good ++ bad :: rest) ->
     forallb validToken good = true ->
     validToken bad = false ->
     (exists n, eval (attachComponentPortal p) c = Throw (DOMException n)) /\
     _portalHost (exec (attachComponentPortal p) c) = _portalHost c /\
     (forall x, In x (classList (exec (attachComponentPortal p) c)) <->
                In x (classList c) \/ In x good)) /\
  (keyboardConfig c = None ->
     attachComponentPortal p c = (Throw TypeError, c)) /\
  (forall n, DOMException n <> MdKeyboardContentAlreadyAttached /\
             DOMException n <> NotYetImplemented) /\
  TypeError <> MdKeyboardContentAlreadyAttached /\
  TypeError <> NotYetImplemented.
Proof.
  intro H; split; [|split; [|split; [|split; [|split]]]]; try discriminate.
  - intros k K V; unfold eval, exec.
    destruct (attach_empty p c k H K V) as (l & -> & Hiff & Hnil & _).
    repeat split; try apply Hiff; auto.
  - intros k good bad rest K E V B; unfold eval, exec.
    destruct (attach_invalid p c k good rest bad H K E V B) as (l & n & -> & Hiff).
    split; [exists n; reflexivity|split; [reflexivity|exact Hiff]].
  - intro K; apply attach_unconfigured; assumption.
  - intro n; split; discriminate.
Qed.

Lemma attach_reads_keyboardConfig_witness :
  hasAttached (_portalHost configured) = false /\
  eval (attachComponentPortal portalX) configured = Return (mkRef portalX) /\
  (keyboardConfig newContainer = None ->
   attachComponentPortal portalX newContainer = (Throw TypeError, newContainer)).
Proof.
  split; [reflexivity|split].
  - destruct (attach_reads_keyboardConfig configured portalX) as [H _];
      [reflexivity|].
    apply (H (mkConfig (Some ["md-keyboard-dark"]))); reflexivity.
  - destruct (attach_reads_keyboardConfig newContainer portalX eq_refl)
      as (_ & _ & H & _).
    exact H.
Defined.

(** *** The extra classes along a trace *)

(** Every operation leaves the class list as it is or grows it by valid
    configured tokens. *)
Lemma classes_step (op : Op) (c : Container) :
  grownFrom c (classList (step op c)).
Proof.
  destruct (not_attach_dec op) as [[p ->]|N].
  - destruct (attach_step_cases p c) as (l & G & [(e & _ & -> & _)|(_ & -> & _)]);
      exact G.
  - destruct (host_frame op c N) as (_ & -> & _); repeat split; auto.
Qed.

Lemma configured_by_assignment (tr : list Op) (k : MdKeyboardConfig) :
  keyboardConfig (run tr newContainer) = Some k -> In (AssignKeyboardConfig k) tr.
Proof.
  induction tr as [|op tr IH] using rev_ind; [discriminate|].
  rewrite run_snoc, keyboardConfig_step; intro K.
  apply in_or_app.
  destruct op; try (left; apply IH, K).
  injection K as ->; right; left; reflexivity.
Qed.

(** X7: the classes of the host element are never removed and only grow;
    on a new container the class list never holds a class twice, and
    every class on it is a valid class token taken from the [extraClasses]
    of a configuration that was assigned in the trace. *)
Theorem extra_classes_are_additive (tr : list Op) :
  (forall c x, In x (classList c) -> In x (classList (run tr c))) /\
  NoDup (classList (run tr newContainer)) /\
  (forall x, In x (classList (run tr newContainer)) ->
     validToken x = true /\
     exists cfg cs,
       In (AssignKeyboardConfig cfg) tr /\ extraClasses cfg = Some cs /\ In x cs).
Proof.
  split; [|split].
  - induction tr as [|op tr IH]; intros c x A; [exact A|].
    cbn [run]; apply IH.
    destruct (classes_step op c) as (M & _); apply M, A.
  - induction tr as [|op tr IH] using rev_ind; [constructor|].
    rewrite run_snoc.
    destruct (classes_step op (run tr newContainer)) as (_ & _ & ND); apply ND, IH.
  - induction tr as [|op tr IH] using rev_ind; [intros x []|].
    rewrite run_snoc; intros x A.
    destruct (classes_step op (run tr newContainer)) as (_ & P & _).
    destruct (P x A) as [B|(V & k & cs & K & E & B)].
    + destruct (IH x B) as (V & cfg & cs & I & E & C).
      split; [exact V|exists cfg, cs; split; [apply in_or_app; auto|auto]].
    + split; [exact V|exists k, cs; split; [|auto]].
      apply in_or_app; left; apply configured_by_assignment, K.
Qed.

(** *** The portal the host remembers *)

Lemma successfulAttaches_snoc (tr : list Op) (op : Op) (c : Container) :
  successfulAttaches (tr ++ [op]) c =
    successfulAttaches tr c + (if isAttached (result op (run tr c)) then 1 else 0).
Proof.
  revert c; induction tr as [|o tr IH]; intro c.
  - unfold successfulAttaches; simpl; destruct (isAttached (result op c)); reflexivity.
  - unfold successfulAttaches in *; cbn [app outcomes filter run].
    destruct (isAttached (result o c)); cbn [List.length]; rewrite IH; reflexivity.
Qed.

(** An operation either is a call of [attachComponentPortal] that gives
    its handle back, after which the portal host remembers that portal,
    or gives no handle back and leaves the portal host alone. *)
Lemma portal_step (op : Op) (c : Container) :
  (exists p k,
     op = AttachComponentPortal p /\
     result op c = Attached (mkRef p) /\
     _portal (_portalHost (step op c)) = Some p /\
     keyboardConfig c = Some k) \/
  (isAttached (result op c) = false /\ _portalHost (step op c) = _portalHost c).
Proof.
  destruct (not_attach_dec op) as [[p ->]|N].
  - destruct (attach_step_cases p c)
      as (l & _ & [(e & R & -> & _)|(R & -> & _ & k & K)]).
    + right; rewrite R; split; reflexivity.
    + left; exists p, k; auto.
  - right; split; [|apply (host_frame op c N)].
    destruct (isAttached (result op c)) eqn:R; [|reflexivity].
    destruct (attached_only_by_attach op c R) as [p ->]; elim (N p); reflexivity.
Qed.

(** X8: on a new container the portal that the portal host remembers is
    the one of the last call of [attachComponentPortal] that returned a
    handle, and that call came after an assignment of [keyboardConfig]:
    nothing else, [attachTemplatePortal] included, hands a portal to the
    host, and no call succeeds before the configuration is there. *)
Theorem portal_is_last_successful_attach (tr : list Op) (x : ComponentPortal) :
  _portal (_portalHost (run tr newContainer)) = Some x ->
  exists tr1 cfg tr2 tr3,
    tr = tr1 ++ AssignKeyboardConfig cfg :: tr2 ++ AttachComponentPortal x :: tr3 /\
    result (AttachComponentPortal x)
      (run (tr1 ++ AssignKeyboardConfig cfg :: tr2) newContainer) = Attached (mkRef x) /\
    successfulAttaches tr3
      (run (tr1 ++ AssignKeyboardConfig cfg :: tr2 ++ [AttachComponentPortal x])
         newContainer) = 0.
Proof.
  induction tr as [|op tr IH] using rev_ind; [discriminate|].
  rewrite run_snoc; intro A.
  destruct (portal_step op (run tr newContainer))
    as [(p & k & -> & R & P & K)|(R & P)].
  - rewrite P in A; injection A as ->.
    apply configured_by_assignment, in_split in K.
    destruct K as (t1 & t2 & ->).
    exists t1, k, t2, []; split; [|split; [exact R|reflexivity]].
    rewrite <- app_assoc; reflexivity.
  - rewrite P in A.
    destruct (IH A) as (t1 & cfg & t2 & t3 & -> & S & Z).
    exists t1, cfg, t2, (t3 ++ [op]); split; [|split; [exact S|]].
    + rewrite <- !app_assoc; cbn [app]; rewrite <- !app_assoc; reflexivity.
    + rewrite successfulAttaches_snoc, Z.
      replace (run t3 (run (t1 ++ AssignKeyboardConfig cfg :: t2 ++ [AttachComponentPortal x])
                         newContainer))
        with (run (t1 ++ AssignKeyboardConfig cfg :: t2 ++ AttachComponentPortal x :: t3)
                newContainer).
      * rewrite R; reflexivity.
      * rewrite <- run_app; f_equal.
        rewrite <- !app_assoc; cbn [app]; rewrite <- !app_assoc; reflexivity.
Qed.

Lemma portal_is_last_successful_attach_witness :
  _portal
    (_portalHost
       (run [AssignKeyboardConfig (mkConfig None); AttachComponentPortal portalX;
             AttachTemplatePortal; AttachComponentPortal portalY; Enter]
          newContainer)) = Some portalY /\
  exists tr1 cfg tr2 tr3,
    [AssignKeyboardConfig (mkConfig None); AttachComponentPortal portalX;
     AttachTemplatePortal; AttachComponentPortal portalY; Enter]
    = tr1 ++ AssignKeyboardConfig cfg :: tr2 ++ AttachComponentPortal portalY :: tr3 /\
    result (AttachComponentPortal portalY)
      (run (tr1 ++ AssignKeyboardConfig cfg :: tr2) newContainer)
    = Attached (mkRef portalY) /\
    successfulAttaches tr3
      (run (tr1 ++ AssignKeyboardConfig cfg :: tr2 ++ [AttachComponentPortal portalY])
         newContainer) = 0.
Proof.
  split; [reflexivity|].
  apply (portal_is_last_successful_attach
           [AssignKeyboardConfig (mkConfig None); AttachComponentPortal portalX;
            AttachTemplatePortal; AttachComponentPortal portalY; Enter] portalY).
  reflexivity.
Defined.
